(** * Trino to GCS transfer: the cursor adapter and the BigQuery type mapping

    A shallow embedding of
    [airflow/providers/google/cloud/transfers/trino_to_gcs.py]:
    the class [_TrinoToGCSTrinoCursorAdapter] (a peek buffer in front of a
    DB-API cursor) and [TrinoToGCSOperator.field_to_bigquery] with its
    [type_map]. *)

From Stdlib Require Import ZArith Ascii String.
From stdpp Require Import base option list strings gmap.

Set Default Proof Using "Type*".

(** ** Python values, exceptions and results *)

(** The values found in a result row or a column description. *)
Inductive PyVal : Type :=
  | PyNone
  | PyBool (b : bool)
  | PyInt (n : Z)
  | PyStr (s : string).

(** A row is a sequence of values; a column description is a tuple
    [(name, type_code, display_size, internal_size, precision, scale,
    null_ok)]. *)
Definition Row : Type := list PyVal.
Definition ColumnDescriptor : Type := list PyVal.

Inductive Exn : Type :=
  | StopIteration
  | IndexError
  | AttributeError
  | TypeError
  | DatabaseError (msg : string).

(** What a call produces: a value, or a raised exception. *)
Inductive Result (A : Type) : Type :=
  | Ok (a : A)
  | Raise (e : Exn).
Arguments Ok {A} a.
Arguments Raise {A} e.

Definition is_ok {A} (r : Result A) : bool :=
  match r with Ok _ => true | Raise _ => false end.

(** ** The wrapped cursor

    The adapter is written against the DB-API cursor of the trino client
    library: the methods [execute], [executemany], [fetchone] and [close],
    and the attributes [description], [rowcount] and [arraysize].  A method
    call may raise and may change the cursor; an attribute is read off the
    cursor's state. *)
Class RawCursor (C : Type) : Type := {
  ExecArgs : Type;
  ExecResult : Type;
  cur_execute : ExecArgs → C → Result ExecResult * C;
  cur_executemany : ExecArgs → C → Result ExecResult * C;
  cur_fetchone : C → Result (option Row) * C;
  cur_close : C → Result () * C;
  cur_description : C → option (list ColumnDescriptor);
  cur_rowcount : C → Z;
  cur_arraysize : C → Z;
}.

(** [list.insert(i, x)] and list truthiness. *)
Definition list_insert_at {A} (i : nat) (x : A) (l : list A) : list A :=
  take i l ++ x :: drop i l.

Definition truthy {A} (l : list A) : bool :=
  match l with [] => false | _ :: _ => true end.

(** What [k] successive fetches return on a stream that still holds the
    rows [l]: the rows in order, then the end-of-stream marker. *)
Fixpoint answers (k : nat) (l : list Row) : list (option Row) :=
  match k with
  | O => []
  | S k' =>
      match l with
      | [] => None :: answers k' []
      | r :: l' => Some r :: answers k' l'
      end
  end.

Section adapter.
Context {C : Type} `{!RawCursor C}.

(** The instance attributes set by [__init__]. *)
Record Adapter : Type := mkAdapter {
  cursor : C;
  rows : list (option Row);
  initialized : bool;
}.

(** The method calls the adapter makes on [self.cursor], in order. *)
Inductive CursorCall : Type :=
  | CallExecute (args : ExecArgs)
  | CallExecutemany (args : ExecArgs)
  | CallFetchone
  | CallClose.

Definition is_fetch (c : CursorCall) : bool :=
  match c with CallFetchone => true | _ => false end.

(** Number of [cursor.fetchone()] calls in a log. *)
Definition fetches (log : list CursorCall) : nat :=
  length (filter (λ c, is_fetch c = true) log).

(** A method body: it runs on the adapter's attributes, returns or
    raises, leaves the attributes as they are at that point, and logs
    the calls made on the wrapped cursor. *)
Definition M (A : Type) : Type :=
  Adapter → Result A * Adapter * list CursorCall.

#[export] Instance M_ret : MRet M := λ A a self, (Ok a, self, []).

#[export] Instance M_bind : MBind M := λ A B f m self,
  match m self with
  | (Ok a, self', log) =>
      let '(r, self'', log') := f a self' in (r, self'', log ++ log')
  | (Raise e, self', log) => (Raise e, self', log)
  end.

Definition raise {A} (e : Exn) : M A := λ self, (Raise e, self, []).

(** [try: m  except StopIteration: handler]. *)
Definition catch_stop {A} (m : M A) (handler : M A) : M A := λ self,
  match m self with
  | (Raise StopIteration, self', log) =>
      let '(r, self'', log') := handler self' in (r, self'', log ++ log')
  | other => other
  end.

(** *** Attribute reads and writes *)

Definition get_initialized : M bool := λ self, (Ok (initialized self), self, []).

Definition set_initialized (b : bool) : M () := λ self,
  (Ok (), mkAdapter (cursor self) (rows self) b, []).

Definition get_rows : M (list (option Row)) := λ self, (Ok (rows self), self, []).

Definition set_rows (l : list (option Row)) : M () := λ self,
  (Ok (), mkAdapter (cursor self) l (initialized self), []).

(** [self.rows.insert(i, x)] *)
Definition rows_insert (i : nat) (x : option Row) : M () :=
  l ← get_rows; set_rows (list_insert_at i x l).

(** [self.rows.pop(0)]; popping from an empty list raises. *)
Definition rows_pop0 : M (option Row) :=
  l ← get_rows;
  match l with
  | [] => raise IndexError
  | x :: l' => set_rows l';; mret x
  end.

(** *** Calls and reads on [self.cursor] *)

Definition call_cursor {A} (ev : CursorCall) (f : C → Result A * C) : M A :=
  λ self,
    let '(r, c') := f (cursor self) in
    (r, mkAdapter c' (rows self) (initialized self), [ev]).

Definition read_cursor {A} (f : C → A) : M A :=
  λ self, (Ok (f (cursor self)), self, []).

(** *** The methods of [_TrinoToGCSTrinoCursorAdapter] *)

Definition __init__ (c : C) : Adapter :=
  {| cursor := c; rows := []; initialized := false |}.

Definition peekone : M (option Row) :=
  set_initialized true;;
  element ← call_cursor CallFetchone cur_fetchone;
  rows_insert 0 element;;
  mret element.

Definition description : M (option (list ColumnDescriptor)) :=
  init ← get_initialized;
  (if negb init then peekone;; mret () else mret ());;
  read_cursor cur_description.

Definition rowcount : M Z := read_cursor cur_rowcount.

Definition close : M () := call_cursor CallClose cur_close.

Definition execute (args : ExecArgs) : M ExecResult :=
  set_initialized false;;
  set_rows [];;
  call_cursor (CallExecute args) (cur_execute args).

Definition executemany (args : ExecArgs) : M ExecResult :=
  set_initialized false;;
  set_rows [];;
  call_cursor (CallExecutemany args) (cur_executemany args).

Definition fetchone : M (option Row) :=
  l ← get_rows;
  if truthy l then rows_pop0 else call_cursor CallFetchone cur_fetchone.

(** The body of [for _ in range(size)], with [size] iterations left. *)
Fixpoint fetchmany_loop (size : nat) (result : list Row) : M (list Row) :=
  match size with
  | O => mret result
  | S size' =>
      row ← fetchone;
      match row with
      | None => mret result
      | Some r => fetchmany_loop size' (result ++ [r])
      end
  end.

Definition fetchmany (size : option Z) : M (list Row) :=
  size ← match size with
         | None => read_cursor cur_arraysize
         | Some n => mret n
         end;
  fetchmany_loop (Z.to_nat size) [].

Definition __next__ : M Row :=
  result ← fetchone;
  match result with
  | None => raise StopIteration
  | Some r => mret r
  end.

Definition __iter__ (self : Adapter) : Adapter := self.

(** *** How callers consume the adapter *)

(** [for row in adapter: out.append(row)]: the loop asks [__iter__] for
    the iterator and calls [__next__] until it raises [StopIteration].
    The answer is [None] when [fuel] steps did not reach the end. *)
Fixpoint iterate_loop (fuel : nat) : M (option (list Row)) :=
  match fuel with
  | O => mret None
  | S fuel' =>
      step ← catch_stop (r ← __next__; mret (Some r)) (mret None);
      match step with
      | None => mret (Some [])
      | Some r => rest ← iterate_loop fuel'; mret (cons r <$> rest)
      end
  end.

Definition iterate (fuel : nat) : M (option (list Row)) :=
  λ self, iterate_loop fuel (__iter__ self).

(** Draining with [fetchone]: call it until it returns [None]. *)
Fixpoint drain (fuel : nat) : M (option (list Row)) :=
  match fuel with
  | O => mret None
  | S fuel' =>
      row ← fetchone;
      match row with
      | None => mret (Some [])
      | Some r => rest ← drain fuel'; mret (cons r <$> rest)
      end
  end.

(** [k] calls of [fetchone] in a row, with everything they returned. *)
Fixpoint fetchone_times (k : nat) : M (list (option Row)) :=
  match k with
  | O => mret []
  | S k' => row ← fetchone; rest ← fetchone_times k'; mret (row :: rest)
  end.

(** *** What the wrapped cursor has in store *)

(** The cursor after [n] calls of its [fetchone]. *)
Fixpoint fetch_n (n : nat) (c : C) : C :=
  match n with
  | O => c
  | S n' => fetch_n n' (cur_fetchone c).2
  end.

(** The cursor emits the rows [rs] in that order, and [None] from then
    on: its [n]-th next fetch returns the [n]-th row of [rs], if any. *)
Definition emits (c : C) (rs : list Row) : Prop :=
  ∀ n, (cur_fetchone (fetch_n n c)).1 = Ok (rs !! n).

(** The rows the adapter has not delivered yet: the buffered rows, then
    those the cursor still emits.  End-of-stream markers may sit at the
    end of the buffer once the cursor has nothing left. *)
Definition pending (self : Adapter) (l : list Row) : Prop :=
  ∃ buf j rs,
    rows self = (Some <$> buf) ++ replicate j None ∧
    emits (cursor self) rs ∧
    (j = 0 ∨ rs = []) ∧
    l = buf ++ rs.

End adapter.

Arguments Adapter C : clear implicits.
Arguments mkAdapter {C} cursor rows initialized.

(** ** A cursor over a list of rows *)

(** Modelled from the spec: the raw cursor is the trino client's, outside
    this repository.  The spec describes it as forward-only, with a fetch
    that returns a row or the end-of-stream marker, column metadata that is
    populated only after the first fetch attempt, a read-only row count and
    a preferred batch size.  A statement is given here by the columns and
    rows the engine answers it with. *)
Record ListCursor : Type := mkListCursor {
  lc_stream : list Row;
  lc_columns : list ColumnDescriptor;
  lc_fetched : bool;
  lc_rowcount : Z;
  lc_arraysize : Z;
}.

Definition lc_execute (args : list ColumnDescriptor * list Row) (c : ListCursor)
    : Result () * ListCursor :=
  (Ok (), mkListCursor args.2 args.1 false (lc_rowcount c) (lc_arraysize c)).

Definition lc_fetchone (c : ListCursor) : Result (option Row) * ListCursor :=
  match lc_stream c with
  | [] => (Ok None, mkListCursor [] (lc_columns c) true (lc_rowcount c) (lc_arraysize c))
  | r :: rs =>
      (Ok (Some r), mkListCursor rs (lc_columns c) true (lc_rowcount c) (lc_arraysize c))
  end.

Definition lc_description (c : ListCursor) : option (list ColumnDescriptor) :=
  if lc_fetched c then Some (lc_columns c) else None.

#[export] Instance ListCursor_raw : RawCursor ListCursor := {|
  ExecArgs := list ColumnDescriptor * list Row;
  ExecResult := ();
  cur_execute := lc_execute;
  cur_executemany := lc_execute;
  cur_fetchone := lc_fetchone;
  cur_close := λ c, (Ok (), c);
  cur_description := lc_description;
  cur_rowcount := lc_rowcount;
  cur_arraysize := lc_arraysize;
|}.

(** A cursor right after executing a statement with the given answer. *)
Definition list_cursor (cols : list ColumnDescriptor) (rs : list Row)
    (rowcount : Z) : ListCursor :=
  mkListCursor rs cols false rowcount 1.

(** ** The type mapping of [TrinoToGCSOperator] *)

(** A type code is held as a byte string, and it stands for the Python
    [str] with the same characters when all of them are ASCII. *)
Definition is_ascii_char (a : ascii) : bool := (nat_of_ascii a <? 128)%nat.

Fixpoint is_ascii (s : string) : bool :=
  match s with
  | EmptyString => true
  | String a s' => is_ascii_char a && is_ascii s'
  end.

(** [str.upper] on a type code: the letters [a] to [z] go to [A] to [Z]
    and every other ASCII character stays.  On an ASCII string this is
    what [str.upper] returns.  Python also converts letters outside ASCII,
    a few of them into ASCII letters (a dotless i becomes [I]); such a
    string is not one the bytes stand for, and what is said of [upper]
    speaks of the code for ASCII type codes. *)
Definition ascii_upper (a : ascii) : ascii :=
  let n := nat_of_ascii a in
  if (97 <=? n)%nat && (n <=? 122)%nat then ascii_of_nat (n - 32) else a.

Fixpoint upper (s : string) : string :=
  match s with
  | EmptyString => EmptyString
  | String a s' => String (ascii_upper a) (upper s')
  end.

(** [s.partition(sep)] for a one-character separator: the part before the
    first [sep], the separator, the part after it; [(s, "", "")] when [s]
    has no [sep]. *)
Fixpoint partition (sep : ascii) (s : string) : string * string * string :=
  match s with
  | EmptyString => (EmptyString, EmptyString, EmptyString)
  | String a s' =>
      if Ascii.eqb a sep then (EmptyString, String sep EmptyString, s')
      else let '(before, sep', after) := partition sep s' in
           (String a before, sep', after)
  end.

(** A dict literal: the items are inserted in the order written. *)
Definition dict_literal (items : list (string * string)) : gmap string string :=
  foldl (λ d kv, <[kv.1 := kv.2]> d) ∅ items.

Definition type_map_items : list (string * string) :=
  [ ("BOOLEAN", "BOOL");
    ("TINYINT", "INT64");
    ("SMALLINT", "INT64");
    ("INTEGER", "INT64");
    ("BIGINT", "INT64");
    ("REAL", "FLOAT64");
    ("DOUBLE", "FLOAT64");
    ("DECIMAL", "NUMERIC");
    ("VARCHAR", "STRING");
    ("CHAR", "STRING");
    ("VARBINARY", "BYTES");
    ("JSON", "STRING");
    ("DATE", "DATE");
    ("TIME", "TIME");
    ("TIME WITH TIME ZONE", "STRING");
    ("TIMESTAMP", "TIMESTAMP");
    ("TIMESTAMP WITH TIME ZONE", "STRING");
    ("IPADDRESS", "STRING");
    ("UUID", "STRING") ]%string.

Definition type_map : gmap string string := dict_literal type_map_items.

#[export] Instance Result_ret : MRet Result := λ A a, Ok a.

#[export] Instance Result_bind : MBind Result := λ A B f r,
  match r with
  | Ok a => f a
  | Raise e => Raise e
  end.

(** [t[i]] on a tuple. *)
Definition subscript (t : list PyVal) (i : nat) : Result PyVal :=
  match t !! i with
  | Some v => Ok v
  | None => Raise IndexError
  end.

(** [v.upper()]: only a [str] has the method. *)
Definition call_upper (v : PyVal) : Result string :=
  match v with
  | PyStr s => Ok (upper s)
  | _ => Raise AttributeError
  end.

(** The dict [{"name": ..., "type": ...}] that [field_to_bigquery] returns. *)
Record BigQueryField : Type := mkBigQueryField {
  name : PyVal;
  type : string;
}.

Definition field_to_bigquery (field : list PyVal) : Result BigQueryField :=
  type_code ← subscript field 1;
  clear_field_type ← call_upper type_code;
  let '(clear_field_type, _, _) := partition "(" clear_field_type in
  let new_field_type := default "STRING"%string (type_map !! clear_field_type) in
  field_name ← subscript field 0;
  mret {| name := field_name; type := new_field_type |}.

(** [convert_type] does nothing to the value. *)
Definition convert_type (value : PyVal) (schema_type : string) : PyVal := value.

(** A 7-item column description with a name and a type code. *)
Definition column_descriptor (field : list PyVal) : bool :=
  match field with
  | PyStr _ :: PyStr _ :: rest => (length rest =? 5)%nat
  | _ => false
  end.

(** The BigQuery types the mapping can produce. *)
Definition bigquery_types : list string :=
  [ "BOOL"; "INT64"; "FLOAT64"; "NUMERIC"; "STRING"; "BYTES"; "DATE"; "TIME";
    "TIMESTAMP" ]%string.

(** *** The mapping as the specification words it *)

(** The static table of the specification (engine type, target type), read
    row by row. *)
Definition spec_table : list (string * string) :=
  [ ("BOOLEAN", "BOOL"); ("DATE", "DATE");
    ("TINYINT", "INT64"); ("TIME", "TIME");
    ("SMALLINT", "INT64"); ("TIME WITH TIME ZONE", "STRING");
    ("INTEGER", "INT64"); ("TIMESTAMP", "TIMESTAMP");
    ("BIGINT", "INT64"); ("TIMESTAMP WITH TIME ZONE", "STRING");
    ("REAL", "FLOAT64"); ("IPADDRESS", "STRING");
    ("DOUBLE", "FLOAT64"); ("UUID", "STRING");
    ("DECIMAL", "NUMERIC"); ("VARCHAR", "STRING");
    ("CHAR", "STRING"); ("VARBINARY", "BYTES");
    ("JSON", "STRING") ]%string.

(** Truncation at the first opening parenthesis. *)
Fixpoint spec_truncate (s : string) : string :=
  match s with
  | EmptyString => EmptyString
  | String a s' =>
      if Ascii.eqb a "(" then EmptyString else String a (spec_truncate s')
  end.

(** Uppercasing, letter by letter off the alphabet: a lower-case letter is
    replaced by the capital at the same place, anything else is kept. *)
Definition spec_alphabet : list (ascii * ascii) :=
  zip (list_ascii_of_string "abcdefghijklmnopqrstuvwxyz")
      (list_ascii_of_string "ABCDEFGHIJKLMNOPQRSTUVWXYZ").

Fixpoint spec_capital (alphabet : list (ascii * ascii)) (a : ascii) : ascii :=
  match alphabet with
  | [] => a
  | (small, capital) :: alphabet' =>
      if Ascii.eqb small a then capital else spec_capital alphabet' a
  end.

Fixpoint spec_uppercase (s : string) : string :=
  match s with
  | EmptyString => EmptyString
  | String a s' => String (spec_capital spec_alphabet a) (spec_uppercase s')
  end.

Definition spec_normalize (type_code : string) : string :=
  spec_truncate (spec_uppercase type_code).

Fixpoint table_lookup (table : list (string * string)) (key : string) : option string :=
  match table with
  | [] => None
  | (k, v) :: table' => if String.eqb k key then Some v else table_lookup table' key
  end.

Definition spec_target (type_code : string) : string :=
  match table_lookup spec_table (spec_normalize type_code) with
  | Some target => target
  | None => "STRING"%string
  end.

Definition mapField (field_name : PyVal) (type_code : string) : BigQueryField :=
  {| name := field_name; type := spec_target type_code |}.

(** ** A sample query *)

Definition sample_columns : list ColumnDescriptor :=
  [ [PyStr "id"; PyStr "INTEGER"; PyNone; PyNone; PyNone; PyNone; PyNone];
    [PyStr "price"; PyStr "decimal(10,2)"; PyNone; PyNone; PyNone; PyNone; PyNone] ].

Definition sample_rows : list Row :=
  [ [PyInt 1; PyStr "1.50"]; [PyInt 2; PyStr "2.25"]; [PyInt 3; PyStr "0.99"] ].

(** The cursor of the sample query; as the trino client does for a
    [SELECT], it reports the row count [-1]. *)
Definition sample_cursor : ListCursor :=
  list_cursor sample_columns sample_rows (-1).

(** The same query with no row in its answer. *)
Definition empty_cursor : ListCursor := list_cursor sample_columns [] (-1).

(** ** More of the operator and of the adapter's callers *)

Section adapter_use.
Context {C : Type} `{!RawCursor C}.

(** [TrinoToGCSOperator.query], from the cursor that [conn.cursor()]
    returned: the statement is executed on the cursor itself and the cursor
    is wrapped in a new adapter. *)
Definition query (sql : ExecArgs) (c : C) : Result (Adapter C) :=
  match cur_execute sql c with
  | (Ok _, c') => Ok (__init__ c')
  | (Raise e, _) => Raise e
  end.

(** The calls a user makes on an adapter, [peekone] apart. *)
Inductive Method : Type :=
  | GetDescription
  | GetRowcount
  | DoClose
  | DoExecute (args : ExecArgs)
  | DoExecutemany (args : ExecArgs)
  | DoFetchone
  | DoFetchmany (size : option Z)
  | DoNext
  | DoIterate (fuel : nat).

(** The calls that only read the result set. *)
Definition is_read (m : Method) : bool :=
  match m with
  | GetDescription | GetRowcount | DoFetchone | DoFetchmany _ | DoNext => true
  | _ => false
  end.

(** One call, with the rows it hands to the caller.  [DoNext] is
    [next(adapter, None)]; [DoIterate] is the [for] loop. *)
Definition invoke (m : Method) : M (list Row) :=
  match m with
  | GetDescription => description;; mret []
  | GetRowcount => rowcount;; mret []
  | DoClose => close;; mret []
  | DoExecute args => execute args;; mret []
  | DoExecutemany args => executemany args;; mret []
  | DoFetchone => row ← fetchone; mret (option_list row)
  | DoFetchmany size => fetchmany size
  | DoNext =>
      row ← catch_stop (r ← __next__; mret (Some r)) (mret None);
      mret (option_list row)
  | DoIterate fuel => out ← iterate fuel; mret (default [] out)
  end.

(** A script of calls; it stops at the first one that raises. *)
Fixpoint invoke_all (ms : list Method) : M (list Row) :=
  match ms with
  | [] => mret []
  | m :: ms' => out ← invoke m; rest ← invoke_all ms'; mret (out ++ rest)
  end.

(** The adapter after a series of calls, each of which may have raised
    (the caller catching the exception and going on). *)
Definition state_after (ms : list Method) (self : Adapter C) : Adapter C :=
  foldl (λ self m, (invoke m self).1.2) self ms.

(** Reading a result in batches:
    [while True: batch = adapter.fetchmany(size); if not batch: break;
    out.append(batch)]. *)
Fixpoint fetch_batches (fuel : nat) (size : option Z) : M (option (list (list Row))) :=
  match fuel with
  | O => mret None
  | S fuel' =>
      batch ← fetchmany size;
      if truthy batch
      then rest ← fetch_batches fuel' size; mret (cons batch <$> rest)
      else mret (Some [])
  end.

(** The state in which a user who never calls [peekone] finds the adapter:
    the rows [l] are still to come and, as long as the metadata has not
    been read, nothing is buffered. *)
Definition readable (self : Adapter C) (l : list Row) : Prop :=
  pending self l ∧ (initialized self = false → rows self = []).

(** The cursor emits the rows [rs] and its next fetch raises [e]. *)
Definition emits_then_raises (c : C) (rs : list Row) (e : Exn) : Prop :=
  ∀ n, n ≤ length rs →
    (cur_fetchone (fetch_n n c)).1
    = match rs !! n with Some r => Ok (Some r) | None => Raise e end.

End adapter_use.

(** A cursor whose connection breaks after the rows of [fc_stream]: the
    fetch after the last of them raises [fc_error]. *)
Record FailingCursor : Type := mkFailingCursor {
  fc_stream : list Row;
  fc_error : Exn;
}.

Definition fc_fetchone (c : FailingCursor) : Result (option Row) * FailingCursor :=
  match fc_stream c with
  | [] => (Raise (fc_error c), c)
  | r :: rs => (Ok (Some r), mkFailingCursor rs (fc_error c))
  end.

#[export] Instance FailingCursor_raw : RawCursor FailingCursor := {|
  ExecArgs := list Row;
  ExecResult := ();
  cur_execute := λ rs c, (Ok (), mkFailingCursor rs (fc_error c));
  cur_executemany := λ rs c, (Ok (), mkFailingCursor rs (fc_error c));
  cur_fetchone := fc_fetchone;
  cur_close := λ c, (Ok (), c);
  cur_description := λ c, None;
  cur_rowcount := λ c, (-1)%Z;
  cur_arraysize := λ c, 1%Z;
|}.

(** [str.lower] on the ASCII letters, to speak of letter case. *)
Definition ascii_lower (a : ascii) : ascii :=
  let n := nat_of_ascii a in
  if (65 <=? n)%nat && (n <=? 90)%nat then ascii_of_nat (n + 32) else a.

Fixpoint lower (s : string) : string :=
  match s with
  | EmptyString => EmptyString
  | String a s' => String (ascii_lower a) (lower s')
  end.

(** A cursor on a connection that is gone: executing and fetching raise. *)
Inductive ClosedCursor : Type := closed_cursor (reason : string).

Definition closed_reason (c : ClosedCursor) : string :=
  match c with closed_cursor reason => reason end.

#[export] Instance ClosedCursor_raw : RawCursor ClosedCursor := {|
  ExecArgs := string;
  ExecResult := ();
  cur_execute := λ sql c, (Raise (DatabaseError (closed_reason c)), c);
  cur_executemany := λ sql c, (Raise (DatabaseError (closed_reason c)), c);
  cur_fetchone := λ c, (Raise (DatabaseError (closed_reason c)), c);
  cur_close := λ c, (Ok (), c);
  cur_description := λ c, None;
  cur_rowcount := λ c, (-1)%Z;
  cur_arraysize := λ c, 1%Z;
|}.

(** ** [LogCapture] of the task SDK's test configuration *)

(** The event dicts are objects that the logger and the capture share: a
    dict is known by its identity, and [entries] holds identities. *)
Record LogWorld : Type := mkLogWorld {
  dicts : gmap nat (gmap string PyVal);
  entries : list nat;
}.

Inductive LogExn : Type := DropEvent.

(** [LogCapture()], among the dicts there are. *)
Definition LogCapture_init (heap : gmap nat (gmap string PyVal)) : LogWorld :=
  {| dicts := heap; entries := [] |}.

(** [if "level" not in event_dict: event_dict["_log_level"] = method_name] *)
Definition note_level (method_name : string) (event_dict : gmap string PyVal)
    : gmap string PyVal :=
  match event_dict !! "level"%string with
  | Some _ => event_dict
  | None => <["_log_level"%string := PyStr method_name]> event_dict
  end.

(** [LogCapture.__call__(_, method_name, event_dict)]: it always raises
    [DropEvent]. *)
Definition LogCapture_call (method_name : string) (event_dict : nat)
    (w : LogWorld) : LogExn * LogWorld :=
  (DropEvent,
   {| dicts := alter (note_level method_name) event_dict (dicts w);
      entries := entries w ++ [event_dict] |}).

(** The capture after the logger has called it for each of [calls]. *)
Definition LogCapture_calls (calls : list (string * nat)) (w : LogWorld) : LogWorld :=
  foldl (λ w call, (LogCapture_call call.1 call.2 w).2) w calls.

(** The method name of the last call on the dict [o], if any. *)
Definition last_method (calls : list (string * nat)) (o : nat) : option string :=
  fst <$> last (filter (λ call, call.2 = o) calls).

(** ** More samples *)

(** The sample query on a connection that breaks after the last row. *)
Definition failing_cursor : FailingCursor :=
  mkFailingCursor sample_rows (DatabaseError "connection lost").

(** The sample query as a statement for the list cursor. *)
Definition sample_statement : @ExecArgs ListCursor ListCursor_raw :=
  (sample_columns, sample_rows).

(** A script of reading calls. *)
Definition sample_reads : list (Method (C := ListCursor)) :=
  [DoFetchone; GetDescription; DoFetchmany (Some 1%Z); GetRowcount; DoNext].

(** Two event dicts, the second with a level of its own, and three calls
    of the logger, two of them with the first dict. *)
Definition sample_heap : gmap nat (gmap string PyVal) :=
  {[ 0 := {[ "event"%string := PyStr "started" ]};
     1 := {[ "event"%string := PyStr "failed"; "level"%string := PyStr "error" ]} ]}.

Definition sample_calls : list (string * nat) :=
  [ ("info"%string, 0); ("error"%string, 1); ("debug"%string, 0) ].

(** * Properties *)

Section adapter_facts.
Context {C : Type} `{!RawCursor C}.
Implicit Types (self : Adapter C) (c : C) (l rs : list Row).

(** ** The two branches of [fetchone] *)

Lemma fetchone_buffered self x buf :
  rows self = x :: buf →
  fetchone self = (Ok x, mkAdapter (cursor self) buf (initialized self), []).
Proof.
  intros Hrows. unfold fetchone, rows_pop0, get_rows, set_rows, mbind, M_bind.
  rewrite Hrows. simpl. rewrite Hrows. reflexivity.
Qed.

Lemma fetchone_unbuffered self :
  rows self = [] →
  fetchone self =
    ((cur_fetchone (cursor self)).1,
     mkAdapter (cur_fetchone (cursor self)).2 [] (initialized self),
     [CallFetchone]).
Proof.
  intros Hrows. unfold fetchone, get_rows, call_cursor, mbind, M_bind.
  rewrite Hrows. simpl. rewrite Hrows.
  destruct (cur_fetchone (cursor self)) as [[e|e] c']; reflexivity.
Qed.

Lemma fetchone_initialized self :
  initialized (fetchone self).1.2 = initialized self.
Proof.
  destruct (rows self) as [|x buf] eqn:Hrows.
  - rewrite fetchone_unbuffered by done. reflexivity.
  - rewrite (fetchone_buffered _ x buf) by done. reflexivity.
Qed.

(** ** [peekone] *)

Lemma peekone_eq self :
  peekone self =
    match cur_fetchone (cursor self) with
    | (Ok element, c') =>
        (Ok element, mkAdapter c' (element :: rows self) true, [CallFetchone])
    | (Raise e, c') =>
        (Raise e, mkAdapter c' (rows self) true, [CallFetchone])
    end.
Proof.
  unfold peekone, set_initialized, call_cursor, rows_insert, get_rows,
    set_rows, mbind, M_bind, mret, M_ret. simpl.
  destruct (cur_fetchone (cursor self)) as [[element|e] c']; reflexivity.
Qed.

Lemma description_eq self :
  description self =
    if initialized self then (Ok (cur_description (cursor self)), self, [])
    else match cur_fetchone (cursor self) with
         | (Ok element, c') =>
             (Ok (cur_description c'),
              mkAdapter c' (element :: rows self) true, [CallFetchone])
         | (Raise e, c') =>
             (Raise e, mkAdapter c' (rows self) true, [CallFetchone])
         end.
Proof.
  unfold description, get_initialized, read_cursor, mbind, M_bind. simpl.
  destruct (initialized self) eqn:Hinit; simpl.
  - reflexivity.
  - unfold mbind, M_bind. rewrite peekone_eq.
    destruct (cur_fetchone (cursor self)) as [[element|e] c']; reflexivity.
Qed.

(** ** The rows a cursor emits *)

Lemma emits_cons_inv c x l :
  emits c (x :: l) →
  (cur_fetchone c).1 = Ok (Some x) ∧ emits (cur_fetchone c).2 l.
Proof. intros H. split; [exact (H 0) | intros n; exact (H (S n))]. Qed.

Lemma emits_nil_inv c :
  emits c [] → (cur_fetchone c).1 = Ok None ∧ emits (cur_fetchone c).2 [].
Proof. intros H. split; [exact (H 0) | intros n; exact (H (S n))]. Qed.

Lemma emits_cons c x l :
  (cur_fetchone c).1 = Ok (Some x) → emits (cur_fetchone c).2 l →
  emits c (x :: l).
Proof. intros H0 Hl [|n]; [exact H0 | exact (Hl n)]. Qed.

Lemma emits_inj c l1 l2 : emits c l1 → emits c l2 → l1 = l2.
Proof.
  intros H1 H2. apply list_eq. intros n.
  specialize (H1 n). rewrite (H2 n) in H1. congruence.
Qed.

(** ** The undelivered rows *)

Lemma pending_unbuffered self l :
  rows self = [] → emits (cursor self) l → pending self l.
Proof. intros Hrows Hem. exists [], 0, l. rewrite Hrows. eauto. Qed.

Lemma pending_init c l : emits c l → pending (__init__ c) l.
Proof. intros. by apply pending_unbuffered. Qed.

Lemma fetchone_pending_cons self x l :
  pending self (x :: l) →
  ∃ self' log,
    fetchone self = (Ok (Some x), self', log) ∧ pending self' l ∧
    initialized self' = initialized self.
Proof.
  intros (buf & j & rs & Hrows & Hem & Hj & Hl).
  destruct buf as [|b buf].
  - simpl in Hl. subst rs.
    destruct Hj as [-> | ?]; [|done]. simpl in Hrows.
    apply emits_cons_inv in Hem as [Hx Hem].
    eexists _, _. rewrite fetchone_unbuffered by done. rewrite Hx.
    split; [reflexivity|]. split; [|reflexivity].
    by apply pending_unbuffered.
  - simpl in Hl. injection Hl as <- ->.
    eexists _, _. rewrite (fetchone_buffered _ _ _ Hrows).
    split; [reflexivity|]. split; [|reflexivity].
    exists buf, j, rs. eauto.
Qed.

Lemma fetchone_pending_nil self :
  pending self [] →
  ∃ self' log,
    fetchone self = (Ok None, self', log) ∧ pending self' [] ∧
    initialized self' = initialized self.
Proof.
  intros (buf & j & rs & Hrows & Hem & Hj & Hl).
  symmetry in Hl. apply app_eq_nil in Hl as [-> ->]. simpl in Hrows.
  destruct j as [|j].
  - apply emits_nil_inv in Hem as [Hx Hem].
    eexists _, _. rewrite fetchone_unbuffered by done. rewrite Hx.
    split; [reflexivity|]. split; [|reflexivity].
    by apply pending_unbuffered.
  - eexists _, _. rewrite (fetchone_buffered _ _ _ Hrows).
    split; [reflexivity|]. split; [|reflexivity].
    exists [], j, []. eauto.
Qed.

(** ** Sequencing *)

Lemma bind_ok {A B} (m : M A) (f : A → M B) self a self' log :
  m self = (Ok a, self', log) →
  (m ≫= f) self = let '(r, self'', log') := f a self' in (r, self'', log ++ log').
Proof. intros Hm. unfold mbind, M_bind. rewrite Hm. reflexivity. Qed.

Lemma bind_raise {A B} (m : M A) (f : A → M B) self e self' log :
  m self = (Raise e, self', log) → (m ≫= f) self = (Raise e, self', log).
Proof. intros Hm. unfold mbind, M_bind. rewrite Hm. reflexivity. Qed.

(** ** [__next__] on the undelivered rows *)

Lemma next_pending_cons self x l :
  pending self (x :: l) →
  ∃ self' log,
    __next__ self = (Ok x, self', log) ∧ pending self' l ∧
    initialized self' = initialized self.
Proof.
  intros Hp.
  destruct (fetchone_pending_cons _ _ _ Hp) as (self' & log & Hf & Hp' & Hi).
  exists self', (log ++ []). unfold __next__.
  rewrite (bind_ok _ _ _ _ _ _ Hf). done.
Qed.

Lemma next_pending_nil self :
  pending self [] →
  ∃ self' log,
    __next__ self = (Raise StopIteration, self', log) ∧ pending self' [] ∧
    initialized self' = initialized self.
Proof.
  intros Hp.
  destruct (fetchone_pending_nil _ Hp) as (self' & log & Hf & Hp' & Hi).
  exists self', (log ++ []). unfold __next__.
  rewrite (bind_ok _ _ _ _ _ _ Hf). done.
Qed.

(** ** The loops *)

Lemma fetchmany_loop_pending n : ∀ self l acc,
  pending self l →
  ∃ self' log,
    fetchmany_loop n acc self = (Ok (acc ++ take n l), self', log) ∧
    pending self' (drop n l) ∧ initialized self' = initialized self.
Proof.
  induction n as [|n IH]; intros self l acc Hp.
  - exists self, []. rewrite take_0, drop_0, app_nil_r. done.
  - destruct l as [|x l].
    + destruct (fetchone_pending_nil _ Hp) as (self' & log & Hf & Hp' & Hi).
      exists self', (log ++ []). cbn [fetchmany_loop].
      rewrite (bind_ok _ _ _ _ _ _ Hf). rewrite app_nil_r. done.
    + destruct (fetchone_pending_cons _ _ _ Hp) as (self1 & log1 & Hf & Hp1 & Hi1).
      destruct (IH self1 l (acc ++ [x]) Hp1) as (self2 & log2 & Hl & Hp2 & Hi2).
      exists self2, (log1 ++ log2). cbn [fetchmany_loop].
      rewrite (bind_ok _ _ _ _ _ _ Hf). rewrite Hl.
      rewrite <- app_assoc. split; [reflexivity|]. split; [done | congruence].
Qed.

Lemma drain_pending fuel : ∀ self l,
  pending self l → length l < fuel →
  ∃ self' log,
    drain fuel self = (Ok (Some l), self', log) ∧
    pending self' [] ∧ initialized self' = initialized self.
Proof.
  induction fuel as [|fuel IH]; intros self l Hp Hlen; [lia|].
  destruct l as [|x l].
  - destruct (fetchone_pending_nil _ Hp) as (self' & log & Hf & Hp' & Hi).
    exists self', (log ++ []). cbn [drain].
    rewrite (bind_ok _ _ _ _ _ _ Hf). done.
  - destruct (fetchone_pending_cons _ _ _ Hp) as (self1 & log1 & Hf & Hp1 & Hi1).
    simpl in Hlen.
    destruct (IH self1 l Hp1 ltac:(lia)) as (self2 & log2 & Hl & Hp2 & Hi2).
    exists self2, (log1 ++ (log2 ++ [])). cbn [drain].
    rewrite (bind_ok _ _ _ _ _ _ Hf). rewrite (bind_ok _ _ _ _ _ _ Hl).
    split; [reflexivity|]. split; [done | congruence].
Qed.

Lemma iterate_pending fuel : ∀ self l,
  pending self l → length l < fuel →
  ∃ self' log,
    iterate fuel self = (Ok (Some l), self', log) ∧
    pending self' [] ∧ initialized self' = initialized self.
Proof.
  unfold iterate, __iter__.
  induction fuel as [|fuel IH]; intros self l Hp Hlen; [lia|].
  destruct l as [|x l].
  - destruct (next_pending_nil _ Hp) as (self' & log & Hf & Hp' & Hi).
    assert (catch_stop (r ← __next__; mret (Some r)) (mret None) self
            = (Ok None, self', log ++ [])) as Hstep.
    { unfold catch_stop. rewrite (bind_raise _ _ _ _ _ _ Hf). reflexivity. }
    exists self', ((log ++ []) ++ []). cbn [iterate_loop].
    rewrite (bind_ok _ _ _ _ _ _ Hstep). done.
  - destruct (next_pending_cons _ _ _ Hp) as (self1 & log1 & Hf & Hp1 & Hi1).
    simpl in Hlen.
    destruct (IH self1 l Hp1 ltac:(lia)) as (self2 & log2 & Hl & Hp2 & Hi2).
    assert (catch_stop (r ← __next__; mret (Some r)) (mret None) self
            = (Ok (Some x), self1, log1 ++ [])) as Hstep.
    { unfold catch_stop. rewrite (bind_ok _ _ _ _ _ _ Hf). reflexivity. }
    exists self2, ((log1 ++ []) ++ (log2 ++ [])). cbn [iterate_loop].
    rewrite (bind_ok _ _ _ _ _ _ Hstep). rewrite (bind_ok _ _ _ _ _ _ Hl).
    split; [reflexivity|]. split; [done | congruence].
Qed.

Lemma fetchone_times_unbuffered k : ∀ self l,
  rows self = [] → emits (cursor self) l →
  ∃ self' log,
    fetchone_times k self = (Ok (answers k l), self', log) ∧
    rows self' = [] ∧ emits (cursor self') (drop k l) ∧
    initialized self' = initialized self ∧ fetches log = k.
Proof.
  induction k as [|k IH]; intros self l Hrows Hem.
  - exists self, []. rewrite drop_0. done.
  - pose proof (fetchone_unbuffered self Hrows) as Hf.
    set (self1 := mkAdapter (cur_fetchone (cursor self)).2 [] (initialized self)) in *.
    assert (∃ l', emits (cursor self1) l' ∧ drop (S k) l = drop k l' ∧
              (cur_fetchone (cursor self)).1 = Ok (head l) ∧
              answers (S k) l = head l :: answers k l')
      as (l' & Hem' & Hdrop & Hhead & Hans).
    { destruct l as [|x l].
      - exists []. apply emits_nil_inv in Hem as [? ?].
        by rewrite !drop_nil.
      - exists l. by apply emits_cons_inv in Hem as [? ?]. }
    destruct (IH self1 l' eq_refl Hem') as (self2 & log2 & Hl & Hr2 & He2 & Hi2 & Hn2).
    exists self2, ([CallFetchone] ++ (log2 ++ [])). cbn [fetchone_times].
    rewrite Hhead in Hf.
    rewrite (bind_ok _ _ _ _ _ _ Hf). rewrite (bind_ok _ _ _ _ _ _ Hl).
    rewrite Hans, Hdrop.
    split; [reflexivity|]. split; [done|]. split; [done|]. split; [done|].
    unfold fetches in *. rewrite !filter_app, !length_app, Hn2. simpl. lia.
Qed.

Lemma answers_all l m :
  answers (length l + m) l = (Some <$> l) ++ replicate m None.
Proof.
  induction l as [|x l IH]; simpl.
  - induction m as [|m IHm]; simpl; [done | by rewrite IHm].
  - by rewrite IH.
Qed.

(** ** The flag [initialized] under the fetching methods *)

Lemma fetchmany_loop_initialized n : ∀ acc self,
  initialized (fetchmany_loop n acc self).1.2 = initialized self.
Proof.
  induction n as [|n IH]; intros acc self; [reflexivity|].
  cbn [fetchmany_loop]. unfold mbind, M_bind.
  pose proof (fetchone_initialized self) as Hi.
  destruct (fetchone self) as [[[[r|]|e] self1] log1]; simpl in Hi |- *; try done.
  specialize (IH (acc ++ [r]) self1).
  destruct (fetchmany_loop n (acc ++ [r]) self1) as [[r2 self2] log2].
  simpl in *. congruence.
Qed.

Lemma fetchmany_initialized size self :
  initialized (fetchmany size self).1.2 = initialized self.
Proof.
  unfold fetchmany, mbind, M_bind.
  destruct size as [k|]; simpl.
  - pose proof (fetchmany_loop_initialized (Z.to_nat k) [] self) as Hi.
    destruct (fetchmany_loop (Z.to_nat k) [] self) as [[r2 self2] log2]. done.
  - pose proof (fetchmany_loop_initialized
                  (Z.to_nat (cur_arraysize (cursor self))) [] self) as Hi.
    destruct (fetchmany_loop _ [] self) as [[r2 self2] log2]. done.
Qed.

Lemma next_initialized self :
  initialized (__next__ self).1.2 = initialized self.
Proof.
  unfold __next__, mbind, M_bind.
  pose proof (fetchone_initialized self) as Hi.
  destruct (fetchone self) as [[[[r|]|e] self1] log1]; done.
Qed.

Lemma iterate_initialized fuel : ∀ self,
  initialized (iterate fuel self).1.2 = initialized self.
Proof.
  unfold iterate, __iter__.
  induction fuel as [|fuel IH]; intros self; [reflexivity|].
  cbn [iterate_loop]. unfold catch_stop, mbind, M_bind.
  pose proof (next_initialized self) as Hi.
  destruct (__next__ self) as [[[r|e] self1] log1]; simpl in Hi |- *.
  - specialize (IH self1).
    destruct (iterate_loop fuel self1) as [[[r2|e2] self2] log2];
      simpl in *; congruence.
  - destruct e; done.
Qed.

(** ** The fetching methods raise only what the cursor raises *)

Lemma fetchone_ok self :
  is_ok (cur_fetchone (cursor self)).1 = true ∨ rows self ≠ [] →
  is_ok (fetchone self).1.1 = true.
Proof.
  intros Hok. destruct (rows self) as [|x buf] eqn:Hrows.
  - rewrite fetchone_unbuffered by done. by destruct Hok.
  - by rewrite (fetchone_buffered _ x buf).
Qed.

Lemma fetchmany_loop_ok n :
  (∀ c, is_ok (cur_fetchone c).1 = true) →
  ∀ acc self, is_ok (fetchmany_loop n acc self).1.1 = true.
Proof.
  intros Hcur. induction n as [|n IH]; intros acc self; [reflexivity|].
  cbn [fetchmany_loop]. unfold mbind, M_bind.
  pose proof (fetchone_ok self (or_introl (Hcur _))) as Hok.
  destruct (fetchone self) as [[[[r|]|e] self1] log1]; simpl in Hok |- *; try done.
  specialize (IH (acc ++ [r]) self1).
  by destruct (fetchmany_loop n (acc ++ [r]) self1) as [[r2 self2] log2].
Qed.

Lemma fetchmany_ok size self :
  (∀ c, is_ok (cur_fetchone c).1 = true) →
  is_ok (fetchmany size self).1.1 = true.
Proof.
  intros Hcur. unfold fetchmany, mbind, M_bind.
  destruct size as [k|]; simpl.
  - pose proof (fetchmany_loop_ok (Z.to_nat k) Hcur [] self) as Hok.
    by destruct (fetchmany_loop (Z.to_nat k) [] self) as [[r2 self2] log2].
  - pose proof (fetchmany_loop_ok (Z.to_nat (cur_arraysize (cursor self)))
                  Hcur [] self) as Hok.
    by destruct (fetchmany_loop _ [] self) as [[r2 self2] log2].
Qed.

(** ** Metadata on an adapter with an empty buffer *)

Lemma description_unbuffered self l :
  initialized self = false → rows self = [] → emits (cursor self) l →
  ∃ self',
    description self = (Ok (cur_description (cursor self')), self', [CallFetchone]) ∧
    pending self' l ∧ initialized self' = true.
Proof.
  intros Hinit Hrows Hem. rewrite description_eq, Hinit, Hrows.
  destruct l as [|x l].
  - apply emits_nil_inv in Hem as [Hx Hem].
    destruct (cur_fetchone (cursor self)) as [r c']. simpl in Hx, Hem. subst r.
    exists (mkAdapter c' [None] true).
    split; [reflexivity|]. split; [|reflexivity].
    exists [], 1, []. eauto.
  - apply emits_cons_inv in Hem as [Hx Hem].
    destruct (cur_fetchone (cursor self)) as [r c']. simpl in Hx, Hem. subst r.
    exists (mkAdapter c' [Some x] true).
    split; [reflexivity|]. split; [|reflexivity].
    exists [x], 0, l. eauto.
Qed.

(** ** The claims about the adapter *)

(** C1.  When the cursor emits the rows [rs] in that order, one metadata
    access on the fresh adapter (its single implicit peek: one fetch on the
    cursor) followed by draining with [fetchone] delivers exactly [rs], in
    order, nothing left out and nothing twice.  A row in the buffer is
    handed out first: with a non-empty buffer [fetchone] returns the head
    of the buffer and makes no call on the cursor. *)
Theorem peek_then_drain_in_order c rs fuel :
  emits c rs → length rs < fuel →
  ∃ d self1 self2 log2,
    description (__init__ c) = (Ok d, self1, [CallFetchone]) ∧
    drain fuel self1 = (Ok (Some rs), self2, log2) ∧
    ∀ self x buf,
      rows self = x :: buf →
      fetchone self = (Ok x, mkAdapter (cursor self) buf (initialized self), []).
Proof.
  intros Hem Hlen.
  destruct (description_unbuffered (__init__ c) rs eq_refl eq_refl Hem)
    as (self1 & Hd & Hp & _).
  destruct (drain_pending fuel self1 rs Hp Hlen) as (self2 & log2 & Hdr & _).
  exists (cur_description (cursor self1)), self1, self2, log2.
  split; [exact Hd|]. split; [exact Hdr|].
  intros self x buf. apply fetchone_buffered.
Qed.

(** C2.  On an adapter whose metadata has not been materialized, reading
    [description] is one [peekone] followed by reading the cursor's
    attribute: the only call made on the cursor is one [fetchone], the flag
    is set, and (the fetch not raising) the answer is the cursor's own
    [description].  Once the flag is set, reading [description] makes no
    call on the cursor, changes nothing and returns the cursor's
    [description] as it is. *)
Theorem description_peeks_once self :
  initialized self = false →
  ∃ r self1,
    description self = (r, self1, [CallFetchone]) ∧
    description self = (peekone;; read_cursor cur_description) self ∧
    cursor self1 = (cur_fetchone (cursor self)).2 ∧
    initialized self1 = true ∧
    (is_ok (cur_fetchone (cursor self)).1 = true →
     r = Ok (cur_description (cursor self1))) ∧
    description self1 = (Ok (cur_description (cursor self1)), self1, []) ∧
    ∀ self2,
      initialized self2 = true →
      description self2 = (Ok (cur_description (cursor self2)), self2, []).
Proof.
  intros Hinit.
  assert (∀ self2, initialized self2 = true →
            description self2 = (Ok (cur_description (cursor self2)), self2, []))
    as Hlater.
  { intros self2 H2. by rewrite description_eq, H2. }
  assert (description self = (peekone;; read_cursor cur_description) self) as Hpeek.
  { rewrite description_eq, Hinit. unfold mbind, M_bind. rewrite peekone_eq.
    destruct (cur_fetchone (cursor self)) as [[element|e] c']; reflexivity. }
  rewrite <- Hpeek. rewrite description_eq, Hinit.
  destruct (cur_fetchone (cursor self)) as [[element|e] c']; simpl;
    eexists _, _; (split; [reflexivity|]); split; try reflexivity;
    split; try reflexivity; split; try reflexivity; split; try done;
    split; auto.
Qed.

(** C5.  [execute] and [executemany] empty the buffer (whatever it held),
    clear the flag, make one call on the cursor, the matching one with the
    same arguments, and return what that call returns or raise what it
    raises.  Reading [description] next peeks afresh: it makes one fetch on
    the cursor. *)
Theorem execute_resets args self :
  execute args self =
    ((cur_execute args (cursor self)).1,
     mkAdapter (cur_execute args (cursor self)).2 [] false,
     [CallExecute args]) ∧
  executemany args self =
    ((cur_executemany args (cursor self)).1,
     mkAdapter (cur_executemany args (cursor self)).2 [] false,
     [CallExecutemany args]) ∧
  (∃ r self', description (execute args self).1.2 = (r, self', [CallFetchone])) ∧
  (∃ r self', description (executemany args self).1.2 = (r, self', [CallFetchone])).
Proof.
  assert (execute args self =
    ((cur_execute args (cursor self)).1,
     mkAdapter (cur_execute args (cursor self)).2 [] false,
     [CallExecute args])) as He.
  { unfold execute, set_initialized, set_rows, call_cursor, mbind, M_bind. simpl.
    destruct (cur_execute args (cursor self)) as [[r|e] c']; reflexivity. }
  assert (executemany args self =
    ((cur_executemany args (cursor self)).1,
     mkAdapter (cur_executemany args (cursor self)).2 [] false,
     [CallExecutemany args])) as Hm.
  { unfold executemany, set_initialized, set_rows, call_cursor, mbind, M_bind. simpl.
    destruct (cur_executemany args (cursor self)) as [[r|e] c']; reflexivity. }
  split; [exact He|]. split; [exact Hm|].
  rewrite He, Hm. simpl. rewrite !description_eq. simpl.
  split.
  - destruct (cur_fetchone (cur_execute args (cursor self)).2) as [[element|e] c'];
      eexists _, _; reflexivity.
  - destruct (cur_fetchone (cur_executemany args (cursor self)).2) as [[element|e] c'];
      eexists _, _; reflexivity.
Qed.

(** C4, as the code has it.  From a state whose undelivered rows are [l],
    [fetchmany(k)] returns the next [min(max(k, 0), length l)] of them, in
    order, without raising, and leaves the others undelivered.  For
    [k >= 1] the result is empty exactly when nothing was left; for
    [k <= 0] it is empty whatever is left.  Without a size, the cursor's
    [arraysize] is the size.  In any state at all, [fetchmany] raises
    nothing as long as the cursor's [fetchone] raises nothing. *)
Theorem fetchmany_returns_min self l k :
  pending self l →
  ∃ self' log,
    fetchmany (Some k) self = (Ok (take (Z.to_nat k) l), self', log) ∧
    pending self' (drop (Z.to_nat k) l) ∧
    Z.of_nat (length (take (Z.to_nat k) l))
      = Z.min (Z.max 0 k) (Z.of_nat (length l)) ∧
    ((0 < k)%Z → take (Z.to_nat k) l = [] ↔ l = []) ∧
    ((k ≤ 0)%Z → take (Z.to_nat k) l = []) ∧
    fetchmany None self = fetchmany (Some (cur_arraysize (cursor self))) self ∧
    ((∀ c, is_ok (cur_fetchone c).1 = true) →
     ∀ size self0, is_ok (fetchmany size self0).1.1 = true).
Proof.
  intros Hp.
  destruct (fetchmany_loop_pending (Z.to_nat k) self l [] Hp)
    as (self' & log & Hl & Hp' & _).
  exists self', ([] ++ log).
  split. { unfold fetchmany. erewrite bind_ok; [|reflexivity]. by rewrite Hl. }
  split; [exact Hp'|].
  split. { rewrite length_take. lia. }
  split.
  { intros Hk. destruct l as [|x l]; [by rewrite take_nil|].
    destruct (Z.to_nat k) as [|n] eqn:Hn; [lia|]. done. }
  split. { intros Hk. replace (Z.to_nat k) with 0 by lia. apply take_0. }
  split; [reflexivity|].
  intros Hcur size self0. by apply fetchmany_ok.
Qed.

(** C6, as the code has it.  From a state whose undelivered rows are [l],
    the [for] loop over the adapter yields exactly [l], in order, and then
    ends; a second loop yields nothing.  Each step is one [fetchone], and
    [None] from it ends the loop.  [rowcount] is the cursor's [rowcount],
    read as it is: the number of rows yielded is [rowcount] whenever the
    cursor reports the number of rows it emits. *)
Theorem iterate_yields_pending self l fuel :
  pending self l → length l < fuel →
  ∃ self1 log1,
    iterate fuel self = (Ok (Some l), self1, log1) ∧
    (∀ fuel', ∃ self2 log2, iterate (S fuel') self1 = (Ok (Some []), self2, log2)) ∧
    rowcount self = (Ok (cur_rowcount (cursor self)), self, []) ∧
    (cur_rowcount (cursor self) = Z.of_nat (length l) →
     rowcount self = (Ok (Z.of_nat (length l)), self, [])) ∧
    ∀ self0,
      __next__ self0 =
        match fetchone self0 with
        | (Ok (Some r), self', log) => (Ok r, self', log ++ [])
        | (Ok None, self', log) => (Raise StopIteration, self', log ++ [])
        | (Raise e, self', log) => (Raise e, self', log)
        end.
Proof.
  intros Hp Hlen.
  destruct (iterate_pending fuel self l Hp Hlen) as (self1 & log1 & Hit & Hp1 & _).
  exists self1, log1. split; [exact Hit|].
  split.
  { intros fuel'.
    destruct (iterate_pending (S fuel') self1 [] Hp1 ltac:(simpl; lia))
      as (self2 & log2 & Hit2 & _).
    by exists self2, log2. }
  split; [reflexivity|].
  split. { intros Hrc. unfold rowcount, read_cursor. by rewrite Hrc. }
  intros self0. unfold __next__, mbind, M_bind.
  destruct (fetchone self0) as [[[[r|]|e] self'] log]; reflexivity.
Qed.

(** C7.  [peekone] fetches the next element from the cursor and puts it at
    the front of the buffer; the [fetchone] that follows returns that very
    element without touching the cursor, and the buffer is back to what it
    was.  After two peeks in a row the two next [fetchone] calls return the
    second peeked element and then the first.  On an empty buffer a peek
    takes nothing out of the rows still to be delivered. *)
Theorem peek_then_fetch self e c1 :
  cur_fetchone (cursor self) = (Ok e, c1) →
  peekone self = (Ok e, mkAdapter c1 (e :: rows self) true, [CallFetchone]) ∧
  (peekone;; fetchone) self
    = (Ok e, mkAdapter c1 (rows self) true, [CallFetchone]) ∧
  fetchone (mkAdapter c1 (e :: rows self) true)
    = (Ok e, mkAdapter c1 (rows self) true, []) ∧
  (∀ e2 c2,
     cur_fetchone c1 = (Ok e2, c2) →
     (peekone;; peekone;; a ← fetchone; b ← fetchone; mret (a, b)) self
       = (Ok (e2, e), mkAdapter c2 (rows self) true, [CallFetchone; CallFetchone])) ∧
  (∀ l, rows self = [] → pending self l →
        pending (mkAdapter c1 (e :: rows self) true) l).
Proof.
  intros Hc.
  assert (peekone self = (Ok e, mkAdapter c1 (e :: rows self) true, [CallFetchone]))
    as Hpeek by (by rewrite peekone_eq, Hc).
  assert (∀ (c' : C) (x : option Row) buf,
            fetchone (mkAdapter c' (x :: buf) true) = (Ok x, mkAdapter c' buf true, []))
    as Hfetch by (intros; by apply fetchone_buffered).
  split; [exact Hpeek|].
  split. { rewrite (bind_ok _ _ _ _ _ _ Hpeek). by rewrite Hfetch. }
  split; [apply Hfetch|].
  split.
  - intros e2 c2 Hc2.
    rewrite (bind_ok _ _ _ _ _ _ Hpeek).
    assert (peekone (mkAdapter c1 (e :: rows self) true)
            = (Ok e2, mkAdapter c2 (e2 :: e :: rows self) true, [CallFetchone]))
      as Hpeek2 by (rewrite peekone_eq; simpl; by rewrite Hc2).
    rewrite (bind_ok _ _ _ _ _ _ Hpeek2).
    rewrite (bind_ok _ _ _ _ _ _ (Hfetch c2 e2 (e :: rows self))).
    rewrite (bind_ok _ _ _ _ _ _ (Hfetch c2 e (rows self))).
    reflexivity.
  - intros l Hrows (buf & j & rs & Hrows' & Hem & Hj & ->).
    rewrite Hrows in Hrows'. symmetry in Hrows'.
    apply app_eq_nil in Hrows' as [Hbuf Hrep].
    apply fmap_nil_inv in Hbuf as ->. simpl. rewrite Hrows.
    assert (c1 = (cur_fetchone (cursor self)).2) as -> by (by rewrite Hc).
    destruct rs as [|x rs].
    + apply emits_nil_inv in Hem as [Hx Hem]. rewrite Hc in Hx. simpl in Hx.
      injection Hx as ->. exists [], 1, []. eauto.
    + apply emits_cons_inv in Hem as [Hx Hem]. rewrite Hc in Hx. simpl in Hx.
      injection Hx as ->. exists [x], 0, rs. eauto.
Qed.

(** C9.  When the cursor is exhausted, [peekone] puts [None] itself in the
    buffer, and the next [fetchone] pops it and returns it, without
    raising.  On an empty result set, [description] and then [fetchone]
    gives [None].  With [None] at the front of the buffer, [fetchmany]
    returns the empty list and the iteration ends at once. *)
Theorem peek_at_end_buffers_marker self c1 :
  cur_fetchone (cursor self) = (Ok None, c1) →
  peekone self = (Ok None, mkAdapter c1 (None :: rows self) true, [CallFetchone]) ∧
  fetchone (mkAdapter c1 (None :: rows self) true)
    = (Ok None, mkAdapter c1 (rows self) true, []) ∧
  (initialized self = false →
   (description;; fetchone) self
     = (Ok None, mkAdapter c1 (rows self) true, [CallFetchone])) ∧
  ∀ self' buf,
    rows self' = None :: buf →
    let popped := mkAdapter (cursor self') buf (initialized self') in
    (∀ k, fetchmany (Some k) self'
          = (Ok [], if decide (0 < k)%Z then popped else self', [])) ∧
    __next__ self' = (Raise StopIteration, popped, []) ∧
    (∀ fuel, iterate (S fuel) self' = (Ok (Some []), popped, [])).
Proof.
  intros Hc.
  split; [by rewrite peekone_eq, Hc|].
  split; [by apply fetchone_buffered|].
  split.
  { intros Hinit.
    assert (description self
            = (Ok (cur_description c1), mkAdapter c1 (None :: rows self) true,
               [CallFetchone])) as Hd by (by rewrite description_eq, Hinit, Hc).
    rewrite (bind_ok _ _ _ _ _ _ Hd).
    by rewrite (fetchone_buffered _ None (rows self)). }
  intros self' buf Hrows popped.
  pose proof (fetchone_buffered self' None buf Hrows) as Hf. fold popped in Hf.
  assert (__next__ self' = (Raise StopIteration, popped, [])) as Hnext.
  { unfold __next__. by rewrite (bind_ok _ _ _ _ _ _ Hf). }
  split.
  - intros k. unfold fetchmany. erewrite bind_ok; [|reflexivity].
    case_decide as Hk.
    + destruct (Z.to_nat k) as [|n] eqn:Hn; [lia|]. cbn [fetchmany_loop].
      by rewrite (bind_ok _ _ _ _ _ _ Hf).
    + replace (Z.to_nat k) with 0 by lia. reflexivity.
  - split; [exact Hnext|].
    intros fuel. unfold iterate, __iter__. cbn [iterate_loop].
    assert (catch_stop (r ← __next__; mret (Some r)) (mret None) self'
            = (Ok None, popped, [])) as Hstep.
    { unfold catch_stop. by rewrite (bind_raise _ _ _ _ _ _ Hnext). }
    by rewrite (bind_ok _ _ _ _ _ _ Hstep).
Qed.

(** C10.  [fetchone], [fetchmany], [__next__] and the iteration leave the
    flag [initialized] as it is, whatever they return or raise; [peekone]
    sets it and [execute] and [executemany] clear it.  So, the cursor
    emitting [rs], reading [description] for the first time after [k]
    calls of [fetchone] still peeks, with one more fetch on the cursor, and
    the row pulled by that peek is the next one delivered: the calls before
    return the first [k] answers and draining afterwards returns the rest
    of [rs] in order. *)
Theorem fetching_keeps_flag c rs k fuel :
  emits c rs → length rs - k < fuel →
  (∀ self, initialized (fetchone self).1.2 = initialized self) ∧
  (∀ size self, initialized (fetchmany size self).1.2 = initialized self) ∧
  (∀ self, initialized (__next__ self).1.2 = initialized self) ∧
  (∀ n self, initialized (iterate n self).1.2 = initialized self) ∧
  (∀ self, initialized (peekone self).1.2 = true) ∧
  (∀ args self, initialized (execute args self).1.2 = false) ∧
  (∀ args self, initialized (executemany args self).1.2 = false) ∧
  ∃ self1 log1 d self2 self3 log3,
    fetchone_times k (__init__ c) = (Ok (answers k rs), self1, log1) ∧
    fetches log1 = k ∧
    description self1 = (Ok d, self2, [CallFetchone]) ∧
    drain fuel self2 = (Ok (Some (drop k rs)), self3, log3).
Proof.
  intros Hem Hlen.
  split; [apply fetchone_initialized|].
  split; [apply fetchmany_initialized|].
  split; [apply next_initialized|].
  split; [apply iterate_initialized|].
  split.
  { intros self. rewrite peekone_eq.
    by destruct (cur_fetchone (cursor self)) as [[element|e] c']. }
  split.
  { intros args self. unfold execute, set_initialized, set_rows, call_cursor,
      mbind, M_bind. simpl. by destruct (cur_execute args (cursor self)). }
  split.
  { intros args self. unfold executemany, set_initialized, set_rows, call_cursor,
      mbind, M_bind. simpl. by destruct (cur_executemany args (cursor self)). }
  destruct (fetchone_times_unbuffered k (__init__ c) rs eq_refl Hem)
    as (self1 & log1 & Hk & Hrows1 & Hem1 & Hi1 & Hn1).
  destruct (description_unbuffered self1 (drop k rs) Hi1 Hrows1 Hem1)
    as (self2 & Hd & Hp2 & _).
  destruct (drain_pending fuel self2 (drop k rs) Hp2) as (self3 & log3 & Hdr & _).
  { by rewrite length_drop. }
  by exists self1, log1, (cur_description (cursor self2)), self2, self3, log3.
Qed.

End adapter_facts.

(** ** The list cursor *)

Lemma list_cursor_emits rs : ∀ cols fetched rc az,
  emits (mkListCursor rs cols fetched rc az) rs.
Proof.
  induction rs as [|r rs IH]; intros cols fetched rc az.
  - intros n. revert fetched. induction n as [|n IHn]; intros fetched; [done|].
    apply IHn.
  - apply emits_cons; [done|]. apply IH.
Qed.

Lemma sample_cursor_emits : emits sample_cursor sample_rows.
Proof. apply list_cursor_emits. Qed.

Lemma empty_cursor_emits : emits empty_cursor [].
Proof. apply list_cursor_emits. Qed.

(** ** The adapter on the sample query *)

Lemma peek_then_drain_in_order_witness :
  emits sample_cursor sample_rows ∧ length sample_rows < 4 ∧
  ∃ d self1 self2 log2,
    description (__init__ sample_cursor) = (Ok d, self1, [CallFetchone]) ∧
    drain 4 self1 = (Ok (Some sample_rows), self2, log2).
Proof.
  split; [apply sample_cursor_emits|]. split; [simpl; lia|].
  destruct (peek_then_drain_in_order sample_cursor sample_rows 4)
    as (d & self1 & self2 & log2 & Hd & Hdr & _);
    [apply sample_cursor_emits | simpl; lia |].
  by exists d, self1, self2, log2.
Defined.

Lemma description_peeks_once_witness :
  initialized (__init__ sample_cursor) = false ∧
  ∃ r self1,
    description (__init__ sample_cursor) = (r, self1, [CallFetchone]) ∧
    description self1 = (Ok (cur_description (cursor self1)), self1, []).
Proof.
  split; [reflexivity|].
  destruct (description_peeks_once (__init__ sample_cursor) eq_refl)
    as (r & self1 & Hd & _ & _ & _ & _ & Hagain & _).
  by exists r, self1.
Defined.

Lemma list_cursor_fetch_ok (c : ListCursor) : is_ok (cur_fetchone c).1 = true.
Proof. destruct c as [[|r rs] cols fetched rc az]; reflexivity. Qed.

Lemma fetchmany_returns_min_witness :
  pending (__init__ sample_cursor) sample_rows ∧
  (∃ self' log,
     fetchmany (Some 2%Z) (__init__ sample_cursor)
       = (Ok (take 2 sample_rows), self', log) ∧
     pending self' (drop 2 sample_rows)) ∧
  ∀ size (self0 : Adapter ListCursor), is_ok (fetchmany size self0).1.1 = true.
Proof.
  split; [apply pending_init, sample_cursor_emits|].
  destruct (fetchmany_returns_min (__init__ sample_cursor) sample_rows 2)
    as (self' & log & Hf & Hp & _ & _ & _ & _ & Hok);
    [apply pending_init, sample_cursor_emits|].
  split; [by exists self', log|].
  apply Hok, list_cursor_fetch_ok.
Defined.

(** C4, as the claim words it, does not hold: [fetchmany(0)] returns the
    empty list although the stream still has all its rows. *)
Lemma fetchmany_zero_on_live_stream :
  ¬ (∀ (self : Adapter ListCursor) (l : list Row) (k : Z) out self' log,
       pending self l →
       fetchmany (Some k) self = (Ok out, self', log) →
       Z.of_nat (length out) = Z.min k (Z.of_nat (length l)) ∧
       (out = [] ↔ l = [])).
Proof.
  intros H.
  destruct (H (__init__ sample_cursor) sample_rows 0%Z [] _ _
              (pending_init _ _ sample_cursor_emits) eq_refl) as [_ [Hempty _]].
  discriminate (Hempty eq_refl).
Qed.

Lemma iterate_yields_pending_witness :
  pending (__init__ sample_cursor) sample_rows ∧ length sample_rows < 4 ∧
  ∃ self1 log1,
    iterate 4 (__init__ sample_cursor) = (Ok (Some sample_rows), self1, log1) ∧
    ∃ self2 log2, iterate 1 self1 = (Ok (Some []), self2, log2).
Proof.
  split; [apply pending_init, sample_cursor_emits|]. split; [simpl; lia|].
  destruct (iterate_yields_pending (__init__ sample_cursor) sample_rows 4)
    as (self1 & log1 & Hit & Hagain & _);
    [apply pending_init, sample_cursor_emits | simpl; lia |].
  exists self1, log1. split; [exact Hit|]. apply Hagain.
Defined.

(** C6, as the claim words it, does not hold: the iteration over the sample
    query yields its three rows, and [rowcount] is the [-1] the cursor
    reports. *)
Lemma rowcount_is_not_rows_yielded :
  ¬ (∀ (c : ListCursor) (rs out : list Row) fuel self' log,
       emits c rs →
       iterate fuel (__init__ c) = (Ok (Some out), self', log) →
       rowcount (__init__ c) = (Ok (Z.of_nat (length out)), __init__ c, [])).
Proof.
  intros H.
  specialize (H sample_cursor sample_rows sample_rows 4 _ _
                sample_cursor_emits eq_refl).
  discriminate H.
Qed.

Lemma peek_then_fetch_witness :
  cur_fetchone (cursor (__init__ sample_cursor))
    = (Ok (sample_rows !! 0), (cur_fetchone sample_cursor).2) ∧
  (peekone;; fetchone) (__init__ sample_cursor)
    = (Ok (sample_rows !! 0), mkAdapter (cur_fetchone sample_cursor).2 [] true,
       [CallFetchone]).
Proof.
  split; [reflexivity|].
  exact (proj1 (proj2 (peek_then_fetch (__init__ sample_cursor) (sample_rows !! 0)
                         (cur_fetchone sample_cursor).2 eq_refl))).
Defined.

Lemma peek_at_end_buffers_marker_witness :
  cur_fetchone (cursor (__init__ empty_cursor))
    = (Ok None, (cur_fetchone empty_cursor).2) ∧
  initialized (__init__ empty_cursor) = false ∧
  (description;; fetchone) (__init__ empty_cursor)
    = (Ok None, mkAdapter (cur_fetchone empty_cursor).2 [] true, [CallFetchone]).
Proof.
  split; [reflexivity|]. split; [reflexivity|].
  exact (proj1 (proj2 (proj2 (peek_at_end_buffers_marker (__init__ empty_cursor)
                                (cur_fetchone empty_cursor).2 eq_refl))) eq_refl).
Defined.

Lemma fetching_keeps_flag_witness :
  emits sample_cursor sample_rows ∧ length sample_rows - 1 < 3 ∧
  ∃ self1 log1 d self2 self3 log3,
    fetchone_times 1 (__init__ sample_cursor)
      = (Ok (answers 1 sample_rows), self1, log1) ∧
    fetches log1 = 1 ∧
    description self1 = (Ok d, self2, [CallFetchone]) ∧
    drain 3 self2 = (Ok (Some (drop 1 sample_rows)), self3, log3).
Proof.
  split; [apply sample_cursor_emits|]. split; [simpl; lia|].
  apply (fetching_keeps_flag sample_cursor sample_rows 1 3);
    [apply sample_cursor_emits | simpl; lia].
Defined.

Example fetchmany_zero_sample :
  fetchmany (Some 0%Z) (__init__ sample_cursor) = (Ok [], __init__ sample_cursor, []) ∧
  (fetchone (__init__ sample_cursor)).1.1 = Ok (Some [PyInt 1; PyStr "1.50"]).
Proof. split; reflexivity. Qed.

Example iterate_sample :
  (iterate 4 (__init__ sample_cursor)).1.1 = Ok (Some sample_rows) ∧
  (rowcount (__init__ sample_cursor)).1.1 = Ok (-1)%Z.
Proof. split; reflexivity. Qed.

(** ** The type mapping *)

Arguments type_map : simpl never.

Lemma table_lookup_app t1 t2 k :
  table_lookup (t1 ++ t2) k
  = match table_lookup t1 k with
    | Some v => Some v
    | None => table_lookup t2 k
    end.
Proof.
  induction t1 as [|[k1 v1] t1 IH]; simpl; [done|].
  by destruct (String.eqb k1 k).
Qed.

Lemma table_lookup_elem t k v : table_lookup t k = Some v → (k, v) ∈ t.
Proof.
  induction t as [|[k1 v1] t IH]; simpl; [done|].
  destruct (String.eqb_spec k1 k) as [->|Hne].
  - intros [= ->]. apply elem_of_cons. by left.
  - intros Hk. apply elem_of_cons. right. by apply IH.
Qed.

(** Two tables that find each other's entries answer every key alike. *)
Lemma table_lookup_agree t1 t2 :
  Forall (λ kv, table_lookup t2 kv.1 = Some kv.2) t1 →
  Forall (λ kv, table_lookup t1 kv.1 = Some kv.2) t2 →
  ∀ k, table_lookup t1 k = table_lookup t2 k.
Proof.
  rewrite !Forall_forall. intros H12 H21 k.
  destruct (table_lookup t1 k) as [v|] eqn:E1.
  - apply table_lookup_elem in E1. symmetry. exact (H12 _ E1).
  - destruct (table_lookup t2 k) as [v|] eqn:E2; [|done].
    apply table_lookup_elem in E2. apply H21 in E2. simpl in E2. congruence.
Qed.

(** A key of a dict literal has the value of its last item with that key. *)
Lemma dict_literal_lookup_from items : ∀ (d : gmap string string) k,
  foldl (λ d kv, <[kv.1 := kv.2]> d) d items !! k
  = match table_lookup (reverse items) k with
    | Some v => Some v
    | None => d !! k
    end.
Proof.
  induction items as [|[k0 v0] items IH]; intros d k; [done|].
  cbn [foldl]. rewrite IH, reverse_cons, table_lookup_app.
  destruct (table_lookup (reverse items) k); [done|]. simpl.
  destruct (String.eqb_spec k0 k) as [->|Hne].
  - by rewrite lookup_insert_eq.
  - by rewrite lookup_insert_ne.
Qed.

Lemma type_map_lookup k :
  type_map !! k = table_lookup (reverse type_map_items) k.
Proof.
  unfold type_map, dict_literal. rewrite dict_literal_lookup_from.
  by destruct (table_lookup (reverse type_map_items) k).
Qed.

(** The dict of the code and the table of the specification hold the same
    entries. *)
Lemma type_map_spec_table k : type_map !! k = table_lookup spec_table k.
Proof.
  rewrite type_map_lookup. revert k. apply table_lookup_agree.
  - vm_compute. repeat constructor.
  - vm_compute. repeat constructor.
Qed.

Lemma type_map_range k v : type_map !! k = Some v → v ∈ bigquery_types.
Proof.
  rewrite type_map_lookup. intros Hk. apply table_lookup_elem in Hk.
  assert (Forall (λ kv : string * string,
                    bool_decide (kv.2 ∈ bigquery_types) = true)
            (reverse type_map_items)) as Hall.
  { vm_compute. repeat constructor. }
  rewrite Forall_forall in Hall. apply Hall in Hk.
  by apply bool_decide_eq_true in Hk.
Qed.

Lemma partition_truncate s : (partition "(" s).1.1 = spec_truncate s.
Proof.
  induction s as [|a s IH]; simpl; [done|].
  destruct (Ascii.eqb a "("); [done|].
  destruct (partition "(" s) as [[before sep] after]. simpl in *. by rewrite IH.
Qed.

Lemma field_to_bigquery_eq field_name type_code rest :
  field_to_bigquery (field_name :: PyStr type_code :: rest)
  = Ok {| name := field_name;
          type := default "STRING"%string
                    (type_map !! (partition "(" (upper type_code)).1.1) |}.
Proof.
  unfold field_to_bigquery, subscript, call_upper, mbind, Result_bind. simpl.
  by destruct (partition "(" (upper type_code)) as [[before sep] after].
Qed.

Lemma ascii_upper_capital a : ascii_upper a = spec_capital spec_alphabet a.
Proof. destruct a as [[] [] [] [] [] [] [] []]; reflexivity. Qed.

Lemma upper_spec_uppercase s : upper s = spec_uppercase s.
Proof.
  induction s as [|a s IH]; simpl; [done|].
  by rewrite ascii_upper_capital, IH.
Qed.

(** C3.  On a column description with an ASCII type code,
    [field_to_bigquery] returns the name as it is and, as type, what the
    specification's table has for the type code put in upper case and cut
    at its first opening parenthesis, or STRING when the table has no such
    entry.  So DECIMAL(10,2) gives NUMERIC, time with time zone gives
    STRING, MAP gives STRING and BIGINT gives INT64; written in small
    letters, decimal(10,2) is normalized to DECIMAL and gives NUMERIC,
    bigint gives INT64 and varbinary gives BYTES. *)
Theorem field_to_bigquery_maps field_name type_code rest :
  is_ascii type_code = true →
  field_to_bigquery (field_name :: PyStr type_code :: rest)
    = Ok (mapField field_name type_code) ∧
  field_to_bigquery (field_name :: PyStr "DECIMAL(10,2)" :: rest)
    = Ok {| name := field_name; type := "NUMERIC" |} ∧
  field_to_bigquery (field_name :: PyStr "time with time zone" :: rest)
    = Ok {| name := field_name; type := "STRING" |} ∧
  field_to_bigquery (field_name :: PyStr "MAP" :: rest)
    = Ok {| name := field_name; type := "STRING" |} ∧
  field_to_bigquery (field_name :: PyStr "BIGINT" :: rest)
    = Ok {| name := field_name; type := "INT64" |} ∧
  (partition "(" (upper "decimal(10,2)")).1.1 = "DECIMAL"%string ∧
  spec_normalize "decimal(10,2)" = "DECIMAL"%string ∧
  field_to_bigquery (field_name :: PyStr "decimal(10,2)" :: rest)
    = Ok {| name := field_name; type := "NUMERIC" |} ∧
  field_to_bigquery (field_name :: PyStr "bigint" :: rest)
    = Ok {| name := field_name; type := "INT64" |} ∧
  field_to_bigquery (field_name :: PyStr "varbinary" :: rest)
    = Ok {| name := field_name; type := "BYTES" |}.
Proof.
  intros _. rewrite !field_to_bigquery_eq.
  split.
  - unfold mapField, spec_target, spec_normalize.
    rewrite partition_truncate, type_map_spec_table, upper_spec_uppercase.
    by destruct (table_lookup spec_table _).
  - repeat split; try (do 2 f_equal); vm_compute; reflexivity.
Qed.

Lemma field_to_bigquery_maps_witness :
  is_ascii "decimal(10,2)" = true ∧
  field_to_bigquery
    [PyStr "price"; PyStr "decimal(10,2)"; PyNone; PyNone; PyNone; PyNone; PyNone]
  = Ok {| name := PyStr "price"; type := spec_target "decimal(10,2)" |} ∧
  spec_target "decimal(10,2)" = "NUMERIC"%string.
Proof.
  split; [reflexivity|]. split; [|by vm_compute].
  exact (proj1 (field_to_bigquery_maps (PyStr "price") "decimal(10,2)"
                  [PyNone; PyNone; PyNone; PyNone; PyNone] eq_refl)).
Defined.

(** C8.  On every 7-item column description whose name and type code are
    strings, [field_to_bigquery] returns and does not raise, and the type
    it returns is one of the BigQuery types, whatever the type code is;
    the name is the description's. *)
Theorem field_to_bigquery_total field :
  column_descriptor field = true →
  ∃ field_name target,
    field_to_bigquery field = Ok {| name := field_name; type := target |} ∧
    field !! 0 = Some field_name ∧
    target ∈ bigquery_types.
Proof.
  intros Hfield.
  destruct field as [|[| | |field_name] [|[| | |type_code] rest]]; try done.
  rewrite field_to_bigquery_eq.
  eexists _, _. split; [reflexivity|]. split; [reflexivity|].
  destruct (type_map !! _) as [v|] eqn:Hk; simpl.
  - by apply type_map_range in Hk.
  - apply (bool_decide_eq_true_1 _). vm_compute. reflexivity.
Qed.

Lemma field_to_bigquery_total_witness :
  column_descriptor
    [PyStr "price"; PyStr "decimal(10,2)"; PyNone; PyNone; PyNone; PyNone; PyNone]
    = true ∧
  ∃ field_name target,
    field_to_bigquery
      [PyStr "price"; PyStr "decimal(10,2)"; PyNone; PyNone; PyNone; PyNone; PyNone]
      = Ok {| name := field_name; type := target |} ∧
    target ∈ bigquery_types.
Proof.
  split; [reflexivity|].
  destruct (field_to_bigquery_total
              [PyStr "price"; PyStr "decimal(10,2)"; PyNone; PyNone; PyNone;
               PyNone; PyNone] eq_refl) as (n & t & Hf & _ & Ht).
  by exists n, t.
Defined.

Example field_to_bigquery_id :
  field_to_bigquery [PyStr "id"; PyStr "INTEGER"]
  = Ok {| name := PyStr "id"; type := "INT64" |}.
Proof. vm_compute. reflexivity. Qed.

Example field_to_bigquery_raises :
  field_to_bigquery [PyStr "id"; PyNone] = Raise AttributeError ∧
  field_to_bigquery [PyStr "id"] = Raise IndexError.
Proof. split; reflexivity. Qed.

(** A statement answered with one row of one column: the metadata is there
    before any row is read, the first [fetchone] returns the row and the
    second one returns [None]. *)
Example single_row_scenario :
  let cols := [[PyStr "n"; PyStr "INTEGER"; PyNone; PyNone; PyNone; PyNone; PyNone]] in
  (d ← description; a ← fetchone; b ← fetchone; mret (d, a, b))
    (__init__ (list_cursor cols [[PyInt 7]] (-1)))
  = (Ok (Some cols, Some [PyInt 7], None),
     mkAdapter (mkListCursor [] cols true (-1) 1) [] true,
     [CallFetchone; CallFetchone]).
Proof. reflexivity. Qed.

(** * Further properties of the adapter *)

Section adapter_more.
Context {C : Type} `{!RawCursor C}.
Implicit Types (self : Adapter C) (c : C) (l rs : list Row).

(** ** Counting the fetches made on the cursor *)

Lemma fetches_app (log1 log2 : list CursorCall) :
  fetches (log1 ++ log2) = fetches log1 + fetches log2.
Proof. unfold fetches. by rewrite filter_app, length_app. Qed.

Lemma fetches_nil : fetches ([] : list CursorCall) = 0.
Proof. reflexivity. Qed.

Lemma fetches_one : fetches [CallFetchone] = 1.
Proof. reflexivity. Qed.

Lemma fetches_cons_fetch (log : list CursorCall) :
  fetches (CallFetchone :: log) = S (fetches log).
Proof. exact (fetches_app [CallFetchone] log). Qed.

Lemma fetchone_cases self :
  (∃ x buf, rows self = x :: buf ∧
     fetchone self = (Ok x, mkAdapter (cursor self) buf (initialized self), [])) ∨
  (rows self = [] ∧
     fetchone self =
       ((cur_fetchone (cursor self)).1,
        mkAdapter (cur_fetchone (cursor self)).2 [] (initialized self),
        [CallFetchone])).
Proof.
  destruct (rows self) as [|x buf] eqn:Hrows.
  - right. split; [done|]. by apply fetchone_unbuffered.
  - left. exists x, buf. split; [done|]. by apply fetchone_buffered.
Qed.

Lemma fetchmany_loop_fetches n : ∀ acc self,
  fetches (fetchmany_loop n acc self).2 ≤ n - length (rows self) ∧
  Forall (λ call, is_fetch call = true) (fetchmany_loop n acc self).2.
Proof.
  induction n as [|n IH]; intros acc self.
  { cbn. split; [lia | constructor]. }
  cbn [fetchmany_loop]. unfold mbind, M_bind.
  destruct (fetchone_cases self) as [(x & buf & Hrows & ->) | [Hrows ->]];
    rewrite Hrows.
  - destruct x as [r|].
    + specialize (IH (acc ++ [r]) (mkAdapter (cursor self) buf (initialized self))).
      destruct (fetchmany_loop n _ _) as [[r2 self2] log2].
      destruct IH as [IHn IHall]. simpl in *. split; [lia | done].
    + cbn. split; [lia | constructor].
  - destruct (cur_fetchone (cursor self)) as [[[r|]|e] c']; simpl.
    + specialize (IH (acc ++ [r]) (mkAdapter c' [] (initialized self))).
      destruct (fetchmany_loop n _ _) as [[r2 self2] log2].
      destruct IH as [IHn IHall]. simpl in *.
      rewrite fetches_cons_fetch.
      split; [lia | by constructor].
    + rewrite fetches_one. split; [lia | by repeat constructor].
    + rewrite fetches_one. split; [lia | by repeat constructor].
Qed.

(** X1.  [fetchmany(k)] never asks the cursor for more than it was asked
    for: in any state and on any cursor it makes at most [k] calls of
    [cursor.fetchone], less the number of buffered elements, and it makes
    no other call on the cursor.  [fetchone] makes no call at all while
    the buffer is not empty. *)
Theorem fetchmany_fetch_bound self k :
  fetches (fetchmany (Some k) self).2 ≤ Z.to_nat k - length (rows self) ∧
  Forall (λ call, is_fetch call = true) (fetchmany (Some k) self).2 ∧
  (rows self ≠ [] → (fetchone self).2 = []).
Proof.
  unfold fetchmany, mbind, M_bind. simpl.
  pose proof (fetchmany_loop_fetches (Z.to_nat k) [] self) as [Hn Hall].
  destruct (fetchmany_loop (Z.to_nat k) [] self) as [[r2 self2] log2].
  simpl in *. split; [exact Hn|]. split; [exact Hall|].
  intros Hrows.
  destruct (fetchone_cases self) as [(x & buf & _ & ->) | [Hnil _]]; done.
Qed.

(** ** The [for] loop and draining with [fetchone] *)

Lemma fetchone_raise self e self' log :
  fetchone self = (Raise e, self', log) →
  (cur_fetchone (cursor self)).1 = Raise e.
Proof.
  destruct (fetchone_cases self) as [(x & buf & _ & ->) | [_ ->]]; [done|].
  by intros [= -> _ _].
Qed.

(** X2.  Unless the cursor itself raises [StopIteration], the [for] loop
    over the adapter and calling [fetchone] until it returns [None] are
    the same thing, in every state and on every cursor: the same rows or
    the same exception, the same adapter afterwards, the same calls on the
    cursor. *)
Theorem iterate_eq_drain fuel : ∀ self,
  (∀ c, (cur_fetchone c).1 ≠ Raise StopIteration) →
  iterate fuel self = drain fuel self.
Proof.
  unfold iterate, __iter__. intros self Hstop. revert self.
  induction fuel as [|fuel IH]; intros self; [reflexivity|].
  cbn [iterate_loop drain]. unfold catch_stop, __next__, mbind, M_bind.
  destruct (fetchone self) as [[[[r|]|e] self1] log1] eqn:Hf; simpl.
  - rewrite IH. destruct (drain fuel self1) as [[[out|e2] self2] log2];
      simpl; by rewrite ?app_nil_r.
  - by rewrite ?app_nil_r.
  - apply fetchone_raise in Hf.
    destruct e; try done. by destruct (Hstop (cursor self)).
Qed.

(** ** [execute] and [executemany] in closed form *)

Lemma execute_resets_eq args self :
  execute args self =
    ((cur_execute args (cursor self)).1,
     mkAdapter (cur_execute args (cursor self)).2 [] false,
     [CallExecute args]) ∧
  executemany args self =
    ((cur_executemany args (cursor self)).1,
     mkAdapter (cur_executemany args (cursor self)).2 [] false,
     [CallExecutemany args]).
Proof.
  unfold execute, executemany, set_initialized, set_rows, call_cursor,
    mbind, M_bind. simpl.
  destruct (cur_execute args (cursor self)) as [[r|e] c'];
    destruct (cur_executemany args (cursor self)) as [[r'|e'] c'']; done.
Qed.

(** ** What the metadata peek costs *)

Lemma drain_unbuffered fuel : ∀ self l,
  rows self = [] → emits (cursor self) l → length l < fuel →
  ∃ self' log,
    drain fuel self = (Ok (Some l), self', log) ∧
    fetches log = S (length l) ∧ rows self' = [].
Proof.
  induction fuel as [|fuel IH]; intros self l Hrows Hem Hlen; [lia|].
  pose proof (fetchone_unbuffered self Hrows) as Hf.
  destruct l as [|x l].
  - apply emits_nil_inv in Hem as [Hx _]. rewrite Hx in Hf.
    eexists _, _. cbn [drain]. rewrite (bind_ok _ _ _ _ _ _ Hf).
    split; [reflexivity|]. done.
  - apply emits_cons_inv in Hem as [Hx Hem]. rewrite Hx in Hf.
    simpl in Hlen.
    destruct (IH (mkAdapter (cur_fetchone (cursor self)).2 [] (initialized self))
                l eq_refl Hem ltac:(lia)) as (self2 & log2 & Hd & Hn & Hr).
    exists self2, ([CallFetchone] ++ (log2 ++ [])). cbn [drain].
    rewrite (bind_ok _ _ _ _ _ _ Hf), (bind_ok _ _ _ _ _ _ Hd).
    split; [reflexivity|]. split; [|done].
    rewrite fetches_app, fetches_app, fetches_one, fetches_nil, Hn. simpl. lia.
Qed.

(** X3.  Reading the metadata first costs no fetch: when the cursor emits
    [rs], reading [description] on the fresh adapter and then draining it
    makes [length rs + 1] calls of [cursor.fetchone] in all, which is what
    draining the fresh adapter makes without the metadata. *)
Theorem peek_costs_no_fetch c rs fuel :
  emits c rs → length rs < fuel →
  ∃ self1 log1 self2 log2,
    (description;; drain fuel) (__init__ c) = (Ok (Some rs), self1, log1) ∧
    fetches log1 = S (length rs) ∧
    drain fuel (__init__ c) = (Ok (Some rs), self2, log2) ∧
    fetches log2 = S (length rs).
Proof.
  intros Hem Hlen.
  destruct (drain_unbuffered fuel (__init__ c) rs eq_refl Hem Hlen)
    as (self2 & log2 & Hd2 & Hn2 & _).
  assert (∃ self1 log1,
            (description;; drain fuel) (__init__ c) = (Ok (Some rs), self1, log1) ∧
            fetches log1 = S (length rs)) as (self1 & log1 & Hd1 & Hn1).
  { destruct fuel as [|fuel]; [lia|].
    pose proof (description_eq (__init__ c)) as Hdesc. simpl in Hdesc.
    destruct rs as [|x rs].
    - apply emits_nil_inv in Hem as [Hx _].
      destruct (cur_fetchone c) as [r c']. simpl in Hx. subst r.
      eexists _, _. rewrite (bind_ok _ _ _ _ _ _ Hdesc). cbn [drain].
      rewrite (bind_ok _ _ _ _ _ _
                 (fetchone_buffered (mkAdapter c' [None] true) None [] eq_refl)).
      split; [reflexivity|]. reflexivity.
    - apply emits_cons_inv in Hem as [Hx Hem].
      destruct (cur_fetchone c) as [r c']. simpl in Hx, Hem. subst r.
      simpl in Hlen.
      destruct (drain_unbuffered fuel (mkAdapter c' [] true) rs eq_refl Hem
                  ltac:(lia)) as (self1 & log1 & Hd1 & Hn1 & _).
      exists self1, ([CallFetchone] ++ ([] ++ (log1 ++ []))).
      rewrite (bind_ok _ _ _ _ _ _ Hdesc). cbn [drain].
      rewrite (bind_ok _ _ _ _ _ _
                 (fetchone_buffered (mkAdapter c' [Some x] true) (Some x) [] eq_refl)).
      simpl cursor. simpl initialized. rewrite (bind_ok _ _ _ _ _ _ Hd1).
      split; [reflexivity|].
      rewrite !fetches_app, fetches_one, !fetches_nil, Hn1. simpl. lia. }
  by exists self1, log1, self2, log2.
Qed.

(** ** A fetch that raises in the middle of a batch *)

Lemma emits_then_raises_nil_inv c e :
  emits_then_raises c [] e → (cur_fetchone c).1 = Raise e.
Proof. intros H. exact (H 0 (Nat.le_refl _)). Qed.

Lemma emits_then_raises_cons_inv c x l e :
  emits_then_raises c (x :: l) e →
  (cur_fetchone c).1 = Ok (Some x) ∧ emits_then_raises (cur_fetchone c).2 l e.
Proof.
  intros H. split.
  - apply (H 0). simpl. lia.
  - intros n Hn. apply (H (S n)). simpl. lia.
Qed.

Lemma fetchmany_loop_raises n : ∀ self buf rs e acc,
  rows self = Some <$> buf → emits_then_raises (cursor self) rs e →
  length buf + length rs < n →
  ∃ self' log,
    fetchmany_loop n acc self = (Raise e, self', log) ∧
    rows self' = [] ∧
    cursor self' = fetch_n (S (length rs)) (cursor self) ∧
    fetches log = S (length rs).
Proof.
  induction n as [|n IH]; intros self buf rs e acc Hrows Hem Hlen; [lia|].
  cbn [fetchmany_loop].
  destruct buf as [|b buf].
  - pose proof (fetchone_unbuffered self Hrows) as Hf.
    destruct rs as [|x rs].
    + apply emits_then_raises_nil_inv in Hem. rewrite Hem in Hf.
      eexists _, _. rewrite (bind_raise _ _ _ _ _ _ Hf). done.
    + apply emits_then_raises_cons_inv in Hem as [Hx Hem]. rewrite Hx in Hf.
      simpl in Hlen.
      destruct (IH (mkAdapter (cur_fetchone (cursor self)).2 [] (initialized self))
                  (@nil Row) rs e (acc ++ [x]) eq_refl Hem ltac:(simpl; lia))
        as (self2 & log2 & Hl & Hr & Hc & Hn).
      exists self2, ([CallFetchone] ++ log2).
      rewrite (bind_ok _ _ _ _ _ _ Hf). rewrite Hl.
      split; [reflexivity|]. split; [done|]. split; [exact Hc|].
      by rewrite fetches_app, fetches_one, Hn.
  - assert (fetchone self
            = (Ok (Some b),
               mkAdapter (cursor self) (@Some Row <$> buf) (initialized self), []))
      as Hf by (by apply fetchone_buffered).
    simpl in Hlen.
    destruct (IH (mkAdapter (cursor self) (@Some Row <$> buf) (initialized self))
                buf rs e (acc ++ [b]) eq_refl Hem ltac:(lia))
      as (self2 & log2 & Hl & Hr & Hc & Hn).
    exists self2, ([] ++ log2).
    rewrite (bind_ok _ _ _ _ _ _ Hf). rewrite Hl. done.
Qed.

(** X4.  When the cursor raises in the middle of a batch, [fetchmany]
    raises the same exception and the rows it had gathered are gone: with
    the rows [buf] in the buffer and a cursor that emits [rs] and then
    raises [e], a [fetchmany(k)] with [k] beyond them raises [e], leaves
    the buffer empty and the cursor past the rows [rs], which no caller
    has seen. *)
Theorem fetchmany_raise_loses_rows self buf rs e k :
  rows self = Some <$> buf → emits_then_raises (cursor self) rs e →
  length buf + length rs < Z.to_nat k →
  ∃ self' log,
    fetchmany (Some k) self = (Raise e, self', log) ∧
    rows self' = [] ∧
    cursor self' = fetch_n (S (length rs)) (cursor self) ∧
    fetches log = S (length rs).
Proof.
  intros Hrows Hem Hlen.
  destruct (fetchmany_loop_raises (Z.to_nat k) self buf rs e [] Hrows Hem Hlen)
    as (self' & log & Hl & Hr & Hc & Hn).
  exists self', ([] ++ log). unfold fetchmany.
  erewrite bind_ok; [|reflexivity]. by rewrite Hl.
Qed.

(** ** [close], [execute] and [query] *)

Lemma close_eq self :
  close self =
    ((cur_close (cursor self)).1,
     mkAdapter (cur_close (cursor self)).2 (rows self) (initialized self),
     [CallClose]) ∧
  rows (close self).1.2 = rows self ∧
  initialized (close self).1.2 = initialized self.
Proof. unfold close, call_cursor. by destruct (cur_close (cursor self)). Qed.

(** X5.  [close] makes one call on the cursor, [close], and returns or
    raises what it does; it touches neither the buffer nor the flag, so an
    element peeked before the cursor was closed is still handed out by the
    next [fetchone], which makes no call on the closed cursor. *)
Theorem close_keeps_buffer self :
  close self =
    ((cur_close (cursor self)).1,
     mkAdapter (cur_close (cursor self)).2 (rows self) (initialized self),
     [CallClose]) ∧
  ∀ x buf,
    rows self = x :: buf →
    fetchone (close self).1.2
      = (Ok x, mkAdapter (cur_close (cursor self)).2 buf (initialized self), []).
Proof.
  assert (close self =
    ((cur_close (cursor self)).1,
     mkAdapter (cur_close (cursor self)).2 (rows self) (initialized self),
     [CallClose])) as Hc.
  { unfold close, call_cursor. by destruct (cur_close (cursor self)). }
  split; [exact Hc|]. intros x buf Hrows. rewrite Hc. simpl.
  by rewrite (fetchone_buffered _ x buf).
Qed.

(** X6.  No row of the previous statement comes out after [execute]: if
    the cursor's [execute] returns and the cursor then emits [rs], the
    iteration that follows yields exactly [rs], whatever the buffer held
    before; and if the cursor's [execute] raises, the buffered rows are
    dropped all the same. *)
Theorem execute_discards_stale_rows self args r c' rs fuel :
  cur_execute args (cursor self) = (Ok r, c') →
  emits c' rs → length rs < fuel →
  ∃ self1 log1,
    (execute args;; iterate fuel) self = (Ok (Some rs), self1, log1) ∧
    ∀ (self0 : Adapter C), rows (execute args self0).1.2 = [].
Proof.
  intros Hex Hem Hlen.
  pose proof (proj1 (execute_resets_eq args self)) as He.
  rewrite Hex in He. simpl in He.
  destruct (iterate_pending fuel (mkAdapter c' [] false) rs
              (pending_unbuffered (mkAdapter c' [] false) rs eq_refl Hem) Hlen)
    as (self1 & log1 & Hit & _).
  exists self1, ([CallExecute args] ++ log1).
  rewrite (bind_ok _ _ _ _ _ _ He). rewrite Hit.
  split; [reflexivity|].
  intros self0. by rewrite (proj1 (execute_resets_eq args self0)).
Qed.

(** X7.  [query] raises what the cursor's [execute] raises, whenever it
    raises; and when it returns, [query] returns a fresh adapter on the
    executed cursor, on which the first [description] is the cursor's
    description as it is after one fetch, and the iteration that follows
    still yields every row the cursor emits, in order. *)
Theorem query_metadata_then_rows sql c :
  (∀ e c', cur_execute sql c = (Raise e, c') → query sql c = Raise e) ∧
  (∀ r c' rs fuel,
     cur_execute sql c = (Ok r, c') → emits c' rs → length rs < fuel →
     ∃ self1 self2 log2,
       query sql c = Ok (__init__ c') ∧
       description (__init__ c')
         = (Ok (cur_description (cur_fetchone c').2), self1, [CallFetchone]) ∧
       iterate fuel self1 = (Ok (Some rs), self2, log2)).
Proof.
  split.
  { intros e c' Hraise. unfold query. by rewrite Hraise. }
  intros r c' rs fuel Hex Hem Hlen.
  destruct (description_unbuffered (__init__ c') rs eq_refl eq_refl Hem)
    as (self1 & Hd & Hp & _).
  destruct (iterate_pending fuel self1 rs Hp Hlen) as (self2 & log2 & Hit & _).
  exists self1, self2, log2.
  split. { unfold query. by rewrite Hex. }
  split; [|exact Hit].
  assert (cursor self1 = (cur_fetchone c').2) as Hc.
  { rewrite description_eq in Hd. simpl in Hd.
    destruct (cur_fetchone c') as [[element|e] c1]; by simplify_eq. }
  by rewrite Hd, Hc.
Qed.

(** ** Any mix of reading calls *)

Lemma fetchone_rows self : rows (fetchone self).1.2 = drop 1 (rows self).
Proof.
  destruct (fetchone_cases self) as [(x & buf & Hrows & ->) | [Hrows ->]];
    by rewrite Hrows.
Qed.

Lemma fetchmany_loop_rows n : ∀ acc self,
  ∃ k, rows (fetchmany_loop n acc self).1.2 = drop k (rows self).
Proof.
  induction n as [|n IH]; intros acc self; [by exists 0|].
  cbn [fetchmany_loop]. unfold mbind, M_bind.
  pose proof (fetchone_rows self) as Hr.
  destruct (fetchone self) as [[[[r|]|e] self1] log1]; simpl in Hr |- *;
    try (by exists 1).
  destruct (IH (acc ++ [r]) self1) as [k Hk].
  destruct (fetchmany_loop n (acc ++ [r]) self1) as [[r2 self2] log2].
  simpl in *. exists (1 + k). by rewrite Hk, Hr, drop_drop.
Qed.

Lemma fetchmany_rows size self :
  ∃ k, rows (fetchmany size self).1.2 = drop k (rows self).
Proof.
  unfold fetchmany, mbind, M_bind.
  destruct size as [n|]; simpl.
  - destruct (fetchmany_loop_rows (Z.to_nat n) [] self) as [k Hk].
    destruct (fetchmany_loop (Z.to_nat n) [] self) as [[r2 self2] log2].
    by exists k.
  - destruct (fetchmany_loop_rows (Z.to_nat (cur_arraysize (cursor self))) [] self)
      as [k Hk].
    destruct (fetchmany_loop _ [] self) as [[r2 self2] log2]. by exists k.
Qed.

Lemma next_rows self : rows (__next__ self).1.2 = drop 1 (rows self).
Proof.
  unfold __next__, mbind, M_bind.
  pose proof (fetchone_rows self) as Hr.
  by destruct (fetchone self) as [[[[r|]|e] self1] log1].
Qed.

Lemma iterate_rows fuel : ∀ self,
  ∃ k, rows (iterate fuel self).1.2 = drop k (rows self).
Proof.
  unfold iterate, __iter__.
  induction fuel as [|fuel IH]; intros self; [by exists 0|].
  cbn [iterate_loop]. unfold catch_stop, mbind, M_bind.
  pose proof (next_rows self) as Hr.
  destruct (__next__ self) as [[[r|e] self1] log1]; simpl in Hr |- *.
  - destruct (IH self1) as [k Hk].
    destruct (iterate_loop fuel self1) as [[[r2|e2] self2] log2];
      simpl in *; exists (1 + k); by rewrite Hk, Hr, drop_drop.
  - destruct e; by exists 1.
Qed.

Lemma description_readable self l :
  readable self l →
  ∃ self' log,
    description self = (Ok (cur_description (cursor self')), self', log) ∧
    readable self' l.
Proof.
  intros [Hp Hbuf]. destruct (initialized self) eqn:Hinit.
  - exists self, []. rewrite description_eq, Hinit. split; [done|].
    split; [done|]. by rewrite Hinit.
  - specialize (Hbuf eq_refl).
    destruct Hp as (buf & j & rs & Hrows & Hem & Hj & ->).
    rewrite Hbuf in Hrows. symmetry in Hrows.
    apply app_eq_nil in Hrows as [Hnil _]. apply fmap_nil_inv in Hnil as ->.
    destruct (description_unbuffered self rs Hinit Hbuf Hem) as (self' & Hd & Hp' & Hi').
    exists self', [CallFetchone]. split; [exact Hd|]. split; [exact Hp'|].
    by rewrite Hi'.
Qed.

Lemma invoke_readable m self l :
  is_read m = true → readable self l →
  ∃ out l' self' log,
    invoke m self = (Ok out, self', log) ∧ l = out ++ l' ∧ readable self' l'.
Proof.
  intros Hm [Hp Hbuf].
  destruct m as [| | | | | |size| |]; try done; cbn [invoke].
  - destruct (description_readable self l (conj Hp Hbuf)) as (self' & log & Hd & Hr).
    exists [], l, self', (log ++ []). by rewrite (bind_ok _ _ _ _ _ _ Hd).
  - exists [], l, self, []. done.
  - pose proof (fetchone_rows self) as Hrows.
    destruct l as [|x l].
    + destruct (fetchone_pending_nil _ Hp) as (self' & log & Hf & Hp' & Hi).
      rewrite Hf in Hrows. simpl in Hrows.
      exists [], [], self', (log ++ []). rewrite (bind_ok _ _ _ _ _ _ Hf).
      split; [done|]. split; [done|]. split; [done|].
      rewrite Hi, Hrows. intros Hinit. by rewrite (Hbuf Hinit).
    + destruct (fetchone_pending_cons _ _ _ Hp) as (self' & log & Hf & Hp' & Hi).
      rewrite Hf in Hrows. simpl in Hrows.
      exists [x], l, self', (log ++ []). rewrite (bind_ok _ _ _ _ _ _ Hf).
      split; [done|]. split; [done|]. split; [done|].
      rewrite Hi, Hrows. intros Hinit. by rewrite (Hbuf Hinit).
  - assert (∃ n, fetchmany size self = fetchmany (Some n) self) as [n ->].
    { destruct size as [n|]; [by exists n|].
      by exists (cur_arraysize (cursor self)). }
    destruct (fetchmany_loop_pending (Z.to_nat n) self l [] Hp)
      as (self' & log & Hl & Hp' & Hi).
    destruct (fetchmany_rows (Some n) self) as [k Hk].
    assert (fetchmany (Some n) self = (Ok (take (Z.to_nat n) l), self', [] ++ log))
      as Hf.
    { unfold fetchmany. erewrite bind_ok; [|reflexivity]. by rewrite Hl. }
    rewrite Hf in Hk. simpl in Hk.
    exists (take (Z.to_nat n) l), (drop (Z.to_nat n) l), self', ([] ++ log).
    split; [exact Hf|]. split; [by rewrite take_drop|]. split; [done|].
    rewrite Hi, Hk. intros Hinit. by rewrite (Hbuf Hinit), drop_nil.
  - pose proof (next_rows self) as Hrows.
    destruct l as [|x l].
    + destruct (next_pending_nil _ Hp) as (self' & log & Hf & Hp' & Hi).
      rewrite Hf in Hrows. simpl in Hrows.
      assert (catch_stop (r ← __next__; mret (Some r)) (mret None) self
              = (Ok None, self', log ++ [])) as Hstep.
      { unfold catch_stop. by rewrite (bind_raise _ _ _ _ _ _ Hf). }
      exists [], [], self', ((log ++ []) ++ []).
      rewrite (bind_ok _ _ _ _ _ _ Hstep).
      split; [done|]. split; [done|]. split; [done|].
      rewrite Hi, Hrows. intros Hinit. by rewrite (Hbuf Hinit).
    + destruct (next_pending_cons _ _ _ Hp) as (self' & log & Hf & Hp' & Hi).
      rewrite Hf in Hrows. simpl in Hrows.
      assert (catch_stop (r ← __next__; mret (Some r)) (mret None) self
              = (Ok (Some x), self', log ++ [])) as Hstep.
      { unfold catch_stop. by rewrite (bind_ok _ _ _ _ _ _ Hf). }
      exists [x], l, self', ((log ++ []) ++ []).
      rewrite (bind_ok _ _ _ _ _ _ Hstep).
      split; [done|]. split; [done|]. split; [done|].
      rewrite Hi, Hrows. intros Hinit. by rewrite (Hbuf Hinit).
Qed.

Lemma invoke_all_readable ms : ∀ self l,
  forallb is_read ms = true → readable self l →
  ∃ out l' self' log,
    invoke_all ms self = (Ok out, self', log) ∧ l = out ++ l' ∧ readable self' l'.
Proof.
  induction ms as [|m ms IH]; intros self l Hms Hr.
  - by exists [], l, self, [].
  - simpl in Hms. apply andb_prop in Hms as [Hm Hms].
    destruct (invoke_readable m self l Hm Hr) as (out1 & l1 & self1 & log1 & H1 & -> & Hr1).
    destruct (IH self1 l1 Hms Hr1) as (out2 & l2 & self2 & log2 & H2 & -> & Hr2).
    exists (out1 ++ out2), l2, self2, (log1 ++ (log2 ++ [])).
    cbn [invoke_all].
    rewrite (bind_ok _ _ _ _ _ _ H1), (bind_ok _ _ _ _ _ _ H2).
    split; [done|]. split; [by rewrite app_assoc | done].
Qed.

(** X8.  Reading calls can be mixed at will: when the cursor emits [rs],
    any series of [description], [rowcount], [fetchone], [fetchmany] and
    [next] calls on the fresh adapter raises nothing and hands out rows in
    the order of [rs], none skipped and none twice, and draining the
    adapter afterwards gives the rest: the rows handed out followed by the
    rows drained are [rs]. *)
Theorem mixed_reads_keep_order c rs ms fuel :
  emits c rs → forallb is_read ms = true → length rs < fuel →
  ∃ out rest self1 log1 self2 log2,
    invoke_all ms (__init__ c) = (Ok out, self1, log1) ∧
    drain fuel self1 = (Ok (Some rest), self2, log2) ∧
    out ++ rest = rs.
Proof.
  intros Hem Hms Hlen.
  destruct (invoke_all_readable ms (__init__ c) rs Hms) as
    (out & rest & self1 & log1 & Hall & Hrs & [Hp _]).
  { split; [by apply pending_init | done]. }
  destruct (drain_pending fuel self1 rest Hp) as (self2 & log2 & Hd & _).
  { subst rs. rewrite length_app in Hlen. lia. }
  by exists out, rest, self1, log1, self2, log2.
Qed.

(** ** The buffer never holds more than one element *)

Lemma bind_mret_state {A B} (m : M A) (f : A → B) self :
  ((a ← m; mret (f a)) self).1.2 = (m self).1.2.
Proof. unfold mbind, M_bind. by destruct (m self) as [[[a|e] self'] log]. Qed.

Lemma shorter_buffer_ok self self' k :
  rows self' = drop k (rows self) → initialized self' = initialized self →
  length (rows self) ≤ 1 ∧ (initialized self = false → rows self = []) →
  length (rows self') ≤ 1 ∧ (initialized self' = false → rows self' = []).
Proof.
  intros -> -> [Hlen Hnil]. rewrite length_drop. split; [lia|].
  intros Hinit. by rewrite (Hnil Hinit), drop_nil.
Qed.

Lemma invoke_buffer_ok m self :
  length (rows self) ≤ 1 ∧ (initialized self = false → rows self = []) →
  let self' := (invoke m self).1.2 in
  length (rows self') ≤ 1 ∧ (initialized self' = false → rows self' = []).
Proof.
  intros HJ. destruct m as [| | |args|args| |size| |fuel]; cbn [invoke];
    cbv zeta; rewrite ?bind_mret_state.
  - rewrite description_eq. destruct HJ as [Hlen Hnil].
    destruct (initialized self) eqn:Hinit.
    { simpl. split; [done|]. by rewrite Hinit. }
    rewrite (Hnil eq_refl).
    destruct (cur_fetchone (cursor self)) as [[element|e] c']; simpl; split; (lia || done).
  - done.
  - rewrite (proj1 (close_eq self)). done.
  - rewrite (proj1 (execute_resets_eq args self)). simpl. split; [lia | done].
  - rewrite (proj2 (execute_resets_eq args self)). simpl. split; [lia | done].
  - apply (shorter_buffer_ok self _ 1); [apply fetchone_rows | apply fetchone_initialized | done].
  - destruct (fetchmany_rows size self) as [k Hk].
    apply (shorter_buffer_ok self _ k); [done | apply fetchmany_initialized | done].
  - assert ((catch_stop (r ← __next__; mret (Some r)) (mret None) self).1.2
            = (__next__ self).1.2) as ->.
    { unfold catch_stop, mbind, M_bind.
      destruct (__next__ self) as [[[r|[]] self'] log]; done. }
    apply (shorter_buffer_ok self _ 1); [apply next_rows | apply next_initialized | done].
  - destruct (iterate_rows fuel self) as [k Hk].
    apply (shorter_buffer_ok self _ k); [done | apply iterate_initialized | done].
Qed.

(** X9.  Without [peekone], the buffer is a single slot: whatever calls of
    [description], [rowcount], [close], [execute], [executemany],
    [fetchone], [fetchmany], [next] and [for] loops are made on a fresh
    adapter, on any cursor and whichever of them raise, the buffer holds
    at most one element afterwards, and none at all while the flag
    [initialized] is off. *)
Theorem buffer_is_one_slot ms c :
  let self := state_after ms (__init__ c) in
  length (rows self) ≤ 1 ∧ (initialized self = false → rows self = []).
Proof.
  unfold state_after.
  assert (∀ self0 : Adapter C,
            length (rows self0) ≤ 1 ∧ (initialized self0 = false → rows self0 = []) →
            let self := foldl (λ self m, (invoke m self).1.2) self0 ms in
            length (rows self) ≤ 1 ∧ (initialized self = false → rows self = []))
    as Hall.
  { induction ms as [|m ms IH]; intros self0 HJ; [exact HJ|].
    cbn [foldl]. apply IH. by apply invoke_buffer_ok. }
  apply Hall. simpl. split; [lia | done].
Qed.

(** ** Reading in batches *)

(** X10.  Reading with [fetchmany(k)], [k >= 1], until a batch comes back
    empty cuts the undelivered rows into consecutive batches: put end to
    end the batches are those rows in order, no batch is empty, none is
    longer than [k], and every batch but the last has exactly [k] rows. *)
Theorem fetch_batches_partition fuel : ∀ self l k,
  pending self l → (0 < k)%Z → length l < fuel →
  ∃ batches self' log,
    fetch_batches fuel (Some k) self = (Ok (Some batches), self', log) ∧
    concat batches = l ∧
    Forall (λ b, b ≠ [] ∧ length b ≤ Z.to_nat k) batches ∧
    ∀ i b, batches !! i = Some b → S i < length batches → length b = Z.to_nat k.
Proof.
  induction fuel as [|fuel IH]; intros self l k Hp Hk Hlen; [lia|].
  destruct (fetchmany_loop_pending (Z.to_nat k) self l [] Hp)
    as (self1 & log1 & Hl & Hp1 & _).
  assert (fetchmany (Some k) self = (Ok (take (Z.to_nat k) l), self1, [] ++ log1))
    as Hf.
  { unfold fetchmany. erewrite bind_ok; [|reflexivity]. by rewrite Hl. }
  cbn [fetch_batches]. rewrite (bind_ok _ _ _ _ _ _ Hf).
  destruct (Z.to_nat k) as [|n] eqn:Hn; [lia|].
  destruct l as [|x l].
  - exists [], self1, (([] ++ log1) ++ []). simpl.
    split; [done|]. split; [done|]. split; [constructor|]. intros i b Hi. done.
  - simpl in Hlen.
    destruct (IH self1 (drop (S n) (x :: l)) k Hp1 Hk) as
      (batches & self2 & log2 & Hb & Hcat & Hall & Hfull).
    { simpl. rewrite length_drop. lia. }
    assert (truthy (take (S n) (x :: l)) = true) as Htr by done.
    assert (take (S n) (x :: l) ≠ []) as Hne by done.
    exists (take (S n) (x :: l) :: batches), self2, (([] ++ log1) ++ (log2 ++ [])).
    rewrite Htr. rewrite (bind_ok _ _ _ _ _ _ Hb). rewrite Hn in *.
    split; [done|].
    split. { cbn [concat]. rewrite Hcat. exact (take_drop (S n) (x :: l)). }
    split.
    { constructor; [|done]. split; [done|]. rewrite length_take. lia. }
    intros [|i] b Hi Hlast.
    + assert (b = take (S n) (x :: l)) as ->.
      { cbn in Hi. injection Hi as <-. reflexivity. }
      rewrite length_take.
      destruct batches as [|b0 batches]; [simpl in Hlast; lia|].
      apply Forall_cons in Hall as [[Hb0 _] _].
      assert (length (drop (S n) (x :: l)) ≠ 0) as Hrest.
      { rewrite <- Hcat. cbn [concat]. rewrite length_app.
        destruct b0; [done | simpl; lia]. }
      rewrite length_drop in Hrest. lia.
    + apply (Hfull i b Hi). simpl in Hlast. lia.
Qed.

End adapter_more.

(** * Further properties of the type mapping *)

Lemma ascii_upper_upper a : ascii_upper (ascii_upper a) = ascii_upper a.
Proof. destruct a as [[] [] [] [] [] [] [] []]; reflexivity. Qed.

Lemma ascii_upper_lower a : ascii_upper (ascii_lower a) = ascii_upper a.
Proof. destruct a as [[] [] [] [] [] [] [] []]; reflexivity. Qed.

Lemma upper_upper s : upper (upper s) = upper s.
Proof. induction s as [|a s IH]; simpl; [done|]. by rewrite ascii_upper_upper, IH. Qed.

Lemma upper_lower s : upper (lower s) = upper s.
Proof. induction s as [|a s IH]; simpl; [done|]. by rewrite ascii_upper_lower, IH. Qed.

Lemma upper_app s1 s2 : upper (s1 +:+ s2) = upper s1 +:+ upper s2.
Proof. induction s1 as [|a s1 IH]; simpl; [done|]. by rewrite IH. Qed.

Lemma spec_truncate_app_paren s1 s2 :
  spec_truncate (s1 +:+ String "(" s2) = spec_truncate s1.
Proof.
  induction s1 as [|a s1 IH]; simpl; [done|].
  destruct (Ascii.eqb a "("); [done|]. by rewrite IH.
Qed.

(** X11.  The type mapping does not look at letter case: a type code, the
    same code in upper case and the same code in lower case give the same
    field. *)
Theorem field_to_bigquery_ignores_case field_name type_code rest :
  field_to_bigquery (field_name :: PyStr (upper type_code) :: rest)
    = field_to_bigquery (field_name :: PyStr type_code :: rest) ∧
  field_to_bigquery (field_name :: PyStr (lower type_code) :: rest)
    = field_to_bigquery (field_name :: PyStr type_code :: rest).
Proof.
  rewrite !field_to_bigquery_eq. by rewrite upper_upper, upper_lower.
Qed.

(** X12.  Whatever follows the first opening parenthesis of a type code
    plays no part: the code with a parenthesis and anything appended gives
    the same field as the code alone.  So a timestamp written with a
    precision maps to TIMESTAMP whatever comes after the parenthesis, a
    time zone suffix included. *)
Theorem field_to_bigquery_ignores_arguments field_name type_code args rest :
  field_to_bigquery (field_name :: PyStr (type_code +:+ String "(" args) :: rest)
    = field_to_bigquery (field_name :: PyStr type_code :: rest) ∧
  field_to_bigquery (field_name :: PyStr ("timestamp" +:+ String "(" args) :: rest)
    = Ok {| name := field_name; type := "TIMESTAMP" |}.
Proof.
  assert (∀ tc,
    field_to_bigquery (field_name :: PyStr (tc +:+ String "(" args) :: rest)
    = field_to_bigquery (field_name :: PyStr tc :: rest)) as Hcut.
  { intros tc. rewrite !field_to_bigquery_eq, !partition_truncate, upper_app.
    change (upper (String "(" args)) with (String "(" (upper args)).
    by rewrite spec_truncate_app_paren. }
  split; [apply Hcut|].
  rewrite Hcut, field_to_bigquery_eq. do 2 f_equal.
Qed.

(** X13.  What [field_to_bigquery] does with any tuple: it raises
    [IndexError] exactly when the tuple has fewer than two items, it raises
    [AttributeError] exactly when the second item is there and is not a
    string, and it returns exactly when the second item is a string; the
    items after the second are never looked at, and the first one is
    copied whatever it is. *)
Theorem field_to_bigquery_outcomes field :
  (field_to_bigquery field = Raise IndexError ↔ length field < 2) ∧
  (field_to_bigquery field = Raise AttributeError ↔
     ∃ v, field !! 1 = Some v ∧ ∀ s, v ≠ PyStr s) ∧
  (is_ok (field_to_bigquery field) = true ↔ ∃ s, field !! 1 = Some (PyStr s)) ∧
  field_to_bigquery field = field_to_bigquery (take 2 field) ∧
  (∀ r, field_to_bigquery field = Ok r → field !! 0 = Some (name r)).
Proof.
  destruct field as [|v0 [|v1 rest]].
  - repeat split; try done; simpl; try lia.
    + by intros (v & ? & _).
    + by intros (s & ?).
  - repeat split; try done; simpl; try lia.
    + by intros (v & ? & _).
    + by intros (s & ?).
  - destruct v1 as [| b | n | s].
    4: { change (take 2 (v0 :: PyStr s :: rest)) with [v0; PyStr s].
         rewrite (field_to_bigquery_eq v0 s rest).
         rewrite (field_to_bigquery_eq v0 s []).
         repeat split; try done; simpl; try lia.
         - intros (v & [= <-] & Hv). by destruct (Hv s).
         - by exists s.
         - by intros r [= <-]. }
    all: repeat split; try done; simpl; try lia.
    all: try (by intros (s & [= ?])).
    all: intros _; eexists; split; [reflexivity | done].
Qed.

(** * [LogCapture] *)

Lemma note_level_keeps method_name (d : gmap string PyVal) k :
  is_Some (d !! k) → is_Some (note_level method_name d !! k).
Proof.
  unfold note_level. destruct (d !! "level"%string); [done|].
  intros Hk. destruct (decide (k = "_log_level"%string)) as [->|Hne].
  - by rewrite lookup_insert_eq.
  - by rewrite lookup_insert_ne.
Qed.

Lemma LogCapture_calls_snoc calls call w :
  LogCapture_calls (calls ++ [call]) w
  = (LogCapture_call call.1 call.2 (LogCapture_calls calls w)).2.
Proof. unfold LogCapture_calls. by rewrite foldl_app. Qed.

Lemma last_method_snoc calls call o :
  last_method (calls ++ [call]) o
  = if decide (call.2 = o) then Some call.1 else last_method calls o.
Proof.
  unfold last_method. rewrite filter_app.
  case_decide as Ho.
  - rewrite (filter_cons_True _ call []) by done.
    by rewrite filter_nil, last_snoc.
  - rewrite (filter_cons_False _ call []) by done.
    by rewrite filter_nil, app_nil_r.
Qed.

(** X14.  The capture records every event and creates or drops no dict:
    after the logger's calls, [entries] is what it was followed by the
    event dicts of the calls, one per call and in call order, and the
    dicts in existence are the same. *)
Theorem log_capture_records_in_order calls : ∀ w,
  entries (LogCapture_calls calls w) = entries w ++ calls.*2 ∧
  dom (dicts (LogCapture_calls calls w)) = dom (dicts w).
Proof.
  unfold LogCapture_calls.
  induction calls as [|call calls IH]; intros w; cbn [foldl fmap list_fmap].
  - by rewrite app_nil_r.
  - destruct (IH (LogCapture_call call.1 call.2 w).2) as [-> ->]. simpl.
    split; [by rewrite <- app_assoc | apply dom_alter_L].
Qed.

(** X15.  What the capture does to an event dict, over any series of
    calls: a dict that has a "level" key, or that no call was made with, is
    left exactly as it was; any other dict is as it was but for the key
    "_log_level", which holds the method name of the last call made with
    that dict, earlier ones being overwritten. *)
Theorem log_capture_dict_after calls : ∀ w o (d : gmap string PyVal),
  dicts w !! o = Some d →
  dicts (LogCapture_calls calls w) !! o
  = Some match d !! "level"%string, last_method calls o with
         | None, Some method_name => <["_log_level"%string := PyStr method_name]> d
         | _, _ => d
         end.
Proof.
  induction calls as [|call calls IH] using rev_ind; intros w o d Hd.
  - simpl. rewrite Hd. by destruct (d !! "level"%string).
  - rewrite LogCapture_calls_snoc, last_method_snoc. simpl.
    specialize (IH w o d Hd).
    case_decide as Ho.
    + subst o. rewrite lookup_alter_eq, IH. simpl. f_equal.
      unfold note_level.
      destruct (d !! "level"%string) as [lv|] eqn:Hlv; [by rewrite Hlv|].
      destruct (last_method calls call.2) as [m0|].
      * rewrite lookup_insert_ne by done. rewrite Hlv.
        by rewrite insert_insert_eq.
      * by rewrite Hlv.
    + by rewrite lookup_alter_ne.
Qed.

Lemma LogCapture_call_level method_name event_dict w :
  is_Some (dicts w !! event_dict) →
  (∀ o, o ∈ entries w →
     ∃ d : gmap string PyVal, dicts w !! o = Some d ∧
       (is_Some (d !! "level"%string) ∨ is_Some (d !! "_log_level"%string))) →
  ∀ o, o ∈ entries (LogCapture_call method_name event_dict w).2 →
    ∃ d : gmap string PyVal,
      dicts (LogCapture_call method_name event_dict w).2 !! o = Some d ∧
      (is_Some (d !! "level"%string) ∨ is_Some (d !! "_log_level"%string)).
Proof.
  intros [d0 Hd0] Hinv o Ho. simpl in *.
  apply elem_of_app in Ho as [Ho | Ho].
  - destruct (Hinv o Ho) as (d & Hd & Hlv).
    destruct (decide (event_dict = o)) as [->|Hne].
    + rewrite lookup_alter_eq, Hd. simpl. eexists. split; [done|].
      destruct Hlv; [left | right]; by apply note_level_keeps.
    + rewrite lookup_alter_ne by done. eauto.
  - apply list_elem_of_singleton in Ho as ->.
    rewrite lookup_alter_eq, Hd0. simpl. eexists. split; [done|].
    unfold note_level. destruct (d0 !! "level"%string) as [lv|] eqn:Hlv.
    + left. by rewrite Hlv.
    + right. by rewrite lookup_insert_eq.
Qed.

(** X16.  Every captured entry tells its level: starting from a new
    capture, after any series of calls each made with an existing dict,
    every dict in [entries] has the key "level" or the key "_log_level". *)
Theorem log_capture_entries_have_level calls heap o :
  (∀ call, call ∈ calls → is_Some (heap !! call.2)) →
  o ∈ entries (LogCapture_calls calls (LogCapture_init heap)) →
  ∃ d : gmap string PyVal,
    dicts (LogCapture_calls calls (LogCapture_init heap)) !! o = Some d ∧
    (is_Some (d !! "level"%string) ∨ is_Some (d !! "_log_level"%string)).
Proof.
  intros Halloc. revert o.
  assert (∀ w,
    (∀ call, call ∈ calls → is_Some (dicts w !! call.2)) →
    (∀ o, o ∈ entries w →
       ∃ d : gmap string PyVal, dicts w !! o = Some d ∧
         (is_Some (d !! "level"%string) ∨ is_Some (d !! "_log_level"%string))) →
    ∀ o, o ∈ entries (LogCapture_calls calls w) →
      ∃ d : gmap string PyVal, dicts (LogCapture_calls calls w) !! o = Some d ∧
        (is_Some (d !! "level"%string) ∨ is_Some (d !! "_log_level"%string)))
    as Hall.
  { clear Halloc. unfold LogCapture_calls.
    induction calls as [|call calls IH]; intros w Halloc Hinv; [exact Hinv|].
    cbn [foldl]. apply IH.
    - intros call' Hcall'. simpl.
      destruct (decide (call.2 = call'.2)) as [Heq|Hne].
      + rewrite Heq, lookup_alter_eq. apply fmap_is_Some, Halloc.
        apply elem_of_cons. by right.
      + rewrite lookup_alter_ne by done. apply Halloc, elem_of_cons. by right.
    - apply LogCapture_call_level; [|exact Hinv].
      apply Halloc, elem_of_cons. by left. }
  apply Hall; [exact Halloc|]. intros o Ho. by apply elem_of_nil in Ho.
Qed.

(** * The further properties on the samples *)

Lemma list_cursor_never_stops (c : ListCursor) :
  (cur_fetchone c).1 ≠ Raise StopIteration.
Proof. by destruct c as [[|r rs] cols fetched rc az]. Qed.

Lemma failing_cursor_emits rs : ∀ e,
  emits_then_raises (mkFailingCursor rs e) rs e.
Proof.
  induction rs as [|r rs IH]; intros e n Hn.
  - by replace n with 0 by (simpl in Hn; lia).
  - destruct n as [|n]; [done|]. apply (IH e n). simpl in Hn. lia.
Qed.

Lemma iterate_eq_drain_witness :
  (∀ c : ListCursor, (cur_fetchone c).1 ≠ Raise StopIteration) ∧
  iterate 4 (__init__ sample_cursor) = drain 4 (__init__ sample_cursor).
Proof.
  split; [apply list_cursor_never_stops|].
  apply (iterate_eq_drain 4 (__init__ sample_cursor)), list_cursor_never_stops.
Defined.

Lemma peek_costs_no_fetch_witness :
  emits sample_cursor sample_rows ∧ length sample_rows < 4 ∧
  ∃ self1 log1 self2 log2,
    (description;; drain 4) (__init__ sample_cursor)
      = (Ok (Some sample_rows), self1, log1) ∧
    fetches log1 = 4 ∧
    drain 4 (__init__ sample_cursor) = (Ok (Some sample_rows), self2, log2) ∧
    fetches log2 = 4.
Proof.
  split; [apply sample_cursor_emits|]. split; [simpl; lia|].
  apply (peek_costs_no_fetch sample_cursor sample_rows 4);
    [apply sample_cursor_emits | simpl; lia].
Defined.

Lemma fetchmany_raise_loses_rows_witness :
  rows (__init__ failing_cursor) = Some <$> [] ∧
  emits_then_raises failing_cursor sample_rows (DatabaseError "connection lost") ∧
  0 + length sample_rows < Z.to_nat 10 ∧
  ∃ self' log,
    fetchmany (Some 10%Z) (__init__ failing_cursor)
      = (Raise (DatabaseError "connection lost"), self', log) ∧
    rows self' = [] ∧ fc_stream (cursor self') = [].
Proof.
  split; [reflexivity|]. split; [apply failing_cursor_emits|].
  split; [simpl; lia|].
  destruct (fetchmany_raise_loses_rows (__init__ failing_cursor) [] sample_rows
              (DatabaseError "connection lost") 10 eq_refl
              (failing_cursor_emits _ _) ltac:(simpl; lia))
    as (self' & log & Hf & Hr & Hc & _).
  exists self', log. split; [exact Hf|]. split; [exact Hr|]. by rewrite Hc.
Defined.

Lemma execute_discards_stale_rows_witness :
  let self := mkAdapter sample_cursor [Some [PyInt 0; PyStr "stale"]] true in
  let args := sample_statement in
  cur_execute args (cursor self) = (Ok (), sample_cursor) ∧
  emits sample_cursor sample_rows ∧ length sample_rows < 4 ∧
  ∃ self1 log1,
    (execute args;; iterate 4) self = (Ok (Some sample_rows), self1, log1).
Proof.
  intros self args.
  split; [reflexivity|]. split; [apply sample_cursor_emits|]. split; [simpl; lia|].
  destruct (execute_discards_stale_rows self args () sample_cursor sample_rows 4
              eq_refl sample_cursor_emits ltac:(simpl; lia))
    as (self1 & log1 & Hit & _).
  by exists self1, log1.
Defined.

Lemma query_metadata_then_rows_witness :
  (cur_execute sample_statement empty_cursor = (Ok (), sample_cursor) ∧
   emits sample_cursor sample_rows ∧ length sample_rows < 4 ∧
   ∃ self1 self2 log2,
     query sample_statement empty_cursor = Ok (__init__ sample_cursor) ∧
     description (__init__ sample_cursor)
       = (Ok (Some sample_columns), self1, [CallFetchone]) ∧
     iterate 4 self1 = (Ok (Some sample_rows), self2, log2)) ∧
  (cur_execute "SELECT 1"%string (closed_cursor "connection closed")
     = (Raise (DatabaseError "connection closed"), closed_cursor "connection closed") ∧
   query "SELECT 1"%string (closed_cursor "connection closed")
     = Raise (DatabaseError "connection closed")).
Proof.
  split.
  - split; [reflexivity|]. split; [apply sample_cursor_emits|]. split; [simpl; lia|].
    destruct (proj2 (query_metadata_then_rows sample_statement empty_cursor)
                () sample_cursor sample_rows 4 eq_refl sample_cursor_emits
                ltac:(simpl; lia))
      as (self1 & self2 & log2 & Hq & Hd & Hit).
    by exists self1, self2, log2.
  - split; [reflexivity|].
    exact (proj1 (query_metadata_then_rows (C := ClosedCursor) "SELECT 1"%string
                    (closed_cursor "connection closed"))
             _ _ eq_refl).
Defined.

Lemma mixed_reads_keep_order_witness :
  emits sample_cursor sample_rows ∧ forallb is_read sample_reads = true ∧
  length sample_rows < 4 ∧
  ∃ out rest self1 log1 self2 log2,
    invoke_all sample_reads (__init__ sample_cursor) = (Ok out, self1, log1) ∧
    drain 4 self1 = (Ok (Some rest), self2, log2) ∧
    out ++ rest = sample_rows.
Proof.
  split; [apply sample_cursor_emits|]. split; [reflexivity|]. split; [simpl; lia|].
  apply (mixed_reads_keep_order sample_cursor sample_rows sample_reads 4);
    [apply sample_cursor_emits | reflexivity | simpl; lia].
Defined.

Example mixed_reads_sample :
  (invoke_all sample_reads (__init__ sample_cursor)).1.1 = Ok sample_rows.
Proof. reflexivity. Qed.

Lemma fetch_batches_partition_witness :
  pending (__init__ sample_cursor) sample_rows ∧ (0 < 2)%Z ∧
  length sample_rows < 4 ∧
  ∃ batches self' log,
    fetch_batches 4 (Some 2%Z) (__init__ sample_cursor)
      = (Ok (Some batches), self', log) ∧
    concat batches = sample_rows.
Proof.
  split; [apply pending_init, sample_cursor_emits|]. split; [lia|].
  split; [simpl; lia|].
  destruct (fetch_batches_partition 4 (__init__ sample_cursor) sample_rows 2
              (pending_init _ _ sample_cursor_emits) ltac:(lia) ltac:(simpl; lia))
    as (batches & self' & log & Hb & Hcat & _).
  by exists batches, self', log.
Defined.

Example fetch_batches_sample :
  (fetch_batches 4 (Some 2%Z) (__init__ sample_cursor)).1.1
  = Ok (Some [ [[PyInt 1; PyStr "1.50"]; [PyInt 2; PyStr "2.25"]];
               [[PyInt 3; PyStr "0.99"]] ]).
Proof. reflexivity. Qed.

Lemma log_capture_dict_after_witness :
  sample_heap !! 0 = Some {[ "event"%string := PyStr "started" ]} ∧
  dicts (LogCapture_calls sample_calls (LogCapture_init sample_heap)) !! 0
  = Some (<["_log_level"%string := PyStr "debug"]>
            {[ "event"%string := PyStr "started" ]}).
Proof.
  split; [by vm_compute|].
  by rewrite (log_capture_dict_after sample_calls (LogCapture_init sample_heap) 0
                {[ "event"%string := PyStr "started" ]}) by (by vm_compute).
Defined.

Lemma sample_calls_allocated call :
  call ∈ sample_calls → is_Some (sample_heap !! call.2).
Proof.
  unfold sample_calls. rewrite !elem_of_cons, elem_of_nil.
  intros [-> | [-> | [-> | []]]]; eexists; vm_compute; reflexivity.
Qed.

Lemma log_capture_entries_have_level_witness :
  (∀ call, call ∈ sample_calls → is_Some (sample_heap !! call.2)) ∧
  1 ∈ entries (LogCapture_calls sample_calls (LogCapture_init sample_heap)) ∧
  ∃ d : gmap string PyVal,
    dicts (LogCapture_calls sample_calls (LogCapture_init sample_heap)) !! 1 = Some d ∧
    (is_Some (d !! "level"%string) ∨ is_Some (d !! "_log_level"%string)).
Proof.
  assert (1 ∈ entries (LogCapture_calls sample_calls (LogCapture_init sample_heap)))
    as Hin by (cbn; rewrite !elem_of_cons; tauto).
  split; [apply sample_calls_allocated|]. split; [exact Hin|].
  exact (log_capture_entries_have_level sample_calls sample_heap 1
           sample_calls_allocated Hin).
Defined.
